(** * Product tour engine: persistence gate, tour hook, spotlight and tooltip geometry

    A shallow embedding of the tour engine of the meeting assistant
    (lib/tour-storage, lib/tour-definitions, hooks/use-tour, the spotlight
    and tooltip components) together with the properties its specification
    states about it.

    Conventions of the embedding:
    - step indices are [Z]: the hook compares them with [>= 0], [> 0] and
      [totalSteps - 1], which is [-1] on an empty catalog;
    - pixel quantities are [Q]: JavaScript numbers are used here only with
      [+], [-], [/ 2], [Math.min] and [Math.max], which are read as exact
      arithmetic;
    - [localStorage] is a finite map from keys to strings whose accesses may
      throw; [typeof window === 'undefined'] is the [Server] runtime;
    - host callbacks are functions on an abstract host state; a ghost log
      records which callback slot was invoked, in order;
    - a handler tests the [currentStep] its render captured and updates the
      pending state: [nextStepVia] and [prevStepVia] take both worlds, and a
      [Fiber] keeps the render and the pending state apart. [nextStep] and
      [prevStep] are one call through the handler of a render nothing has
      been queued on since. *)

From Stdlib Require Import ZArith QArith Qminmax Lia Lqa.
From stdpp Require Import base strings gmap list.

Close Scope Q_scope.

(** ** lib/tour-storage *)

Module TourStorage.

(** Outcome of a call that may throw. *)
Inductive Completion (A : Type) : Type :=
| Returns (a : A)
| Throws.
Arguments Returns {A} a.
Arguments Throws {A}.

(** The Web Storage object: its entries, and for which calls the
    user agent raises (access denied, quota exceeded). *)
Record Storage := {
  items : gmap string string;
  getItemThrows : string -> bool;
  setItemThrows : string -> string -> bool
}.

Definition getItem (ls : Storage) (key : string) : Completion (option string) :=
  if getItemThrows ls key then Throws else Returns (items ls !! key).

Definition setItem (ls : Storage) (key value : string) : Completion Storage :=
  if setItemThrows ls key value then Throws
  else Returns {| items := <[key := value]> (items ls);
                  getItemThrows := getItemThrows ls;
                  setItemThrows := setItemThrows ls |}.

(** What a page sees of the browser: the storage and the error console. *)
Record Browser := {
  localStorage : Storage;
  console : list string
}.

Definition console_error (msg : string) (b : Browser) : Browser :=
  {| localStorage := localStorage b; console := console b ++ [msg] |}.

Definition withStorage (ls : Storage) (b : Browser) : Browser :=
  {| localStorage := ls; console := console b |}.

(** [Server]: there is no [window] (server-side rendering). *)
Inductive Runtime :=
| Server
| Client (b : Browser).

Definition TOUR_COMPLETED_KEY : string := "tour:meeting:completed".
Definition TOUR_VERSION_KEY : string := "tour:version".
Definition CURRENT_TOUR_VERSION : string := "1.0.0".

Definition isTourCompleted (rt : Runtime) : bool :=
  match rt with
  | Server => true
  | Client b =>
      match getItem (localStorage b) TOUR_COMPLETED_KEY with
      | Returns v => bool_decide (v = Some "true")
      | Throws => false
      end
  end.

Definition getTourVersion (rt : Runtime) : option string :=
  match rt with
  | Server => None
  | Client b =>
      match getItem (localStorage b) TOUR_VERSION_KEY with
      | Returns v => v
      | Throws => None
      end
  end.

(** [markTourCompleted] with the version constant as a parameter: the
    constant is bumped between releases. *)
Definition markTourCompletedAt (version : string) (rt : Runtime) : Runtime :=
  match rt with
  | Server => Server
  | Client b =>
      match setItem (localStorage b) TOUR_COMPLETED_KEY "true" with
      | Throws => Client (console_error "Failed to save tour completion state" b)
      | Returns ls1 =>
          match setItem ls1 TOUR_VERSION_KEY version with
          | Throws =>
              Client (console_error "Failed to save tour completion state"
                        (withStorage ls1 b))
          | Returns ls2 => Client (withStorage ls2 b)
          end
      end
  end.

Definition markTourCompleted : Runtime -> Runtime :=
  markTourCompletedAt CURRENT_TOUR_VERSION.

(** [shouldShowTour] with the version constant as a parameter. *)
Definition shouldShowTourAt (version : string) (rt : Runtime) : bool :=
  match rt with
  | Server => false
  | Client _ =>
      if negb (isTourCompleted rt) then true
      else if bool_decide (getTourVersion rt ≠ Some version) then true
      else false
  end.

Definition shouldShowTour : Runtime -> bool :=
  shouldShowTourAt CURRENT_TOUR_VERSION.

(** The two persisted fields, as stored. *)
Definition storedCompleted (ls : Storage) : option string :=
  items ls !! TOUR_COMPLETED_KEY.
Definition storedVersion (ls : Storage) : option string :=
  items ls !! TOUR_VERSION_KEY.

(** A storage that never throws. *)
Definition reliable (m : gmap string string) : Storage :=
  {| items := m;
     getItemThrows := fun _ => false;
     setItemThrows := fun _ _ => false |}.

(** A storage whose every access throws. *)
Definition denied (m : gmap string string) : Storage :=
  {| items := m;
     getItemThrows := fun _ => true;
     setItemThrows := fun _ _ => true |}.

(** A storage that can be read but is full: every write throws. *)
Definition quotaExceeded (m : gmap string string) : Storage :=
  {| items := m;
     getItemThrows := fun _ => false;
     setItemThrows := fun _ _ => true |}.

Definition browserOf (ls : Storage) : Browser :=
  {| localStorage := ls; console := [] |}.

(** The persisted record [(completed, version)] of a runtime, if it has a
    storage at all. *)
Definition persistedRecord (rt : Runtime) : option (option string * option string) :=
  match rt with
  | Server => None
  | Client b =>
      Some (storedCompleted (localStorage b), storedVersion (localStorage b))
  end.

(** The runtime has a storage that takes both writes of
    [markTourCompleted]. *)
Definition acceptsCompletionWrite (rt : Runtime) : bool :=
  match rt with
  | Server => false
  | Client b =>
      negb (setItemThrows (localStorage b) TOUR_COMPLETED_KEY "true") &&
      negb (setItemThrows (localStorage b) TOUR_VERSION_KEY CURRENT_TOUR_VERSION)
  end.

(** [localStorage.removeItem]. The [Storage] record does not say for which
    keys a removal raises, so that is an argument of its own. *)
Definition removeItem (removeItemThrows : string -> bool) (ls : Storage)
    (key : string) : Completion Storage :=
  if removeItemThrows key then Throws
  else Returns {| items := delete key (items ls);
                  getItemThrows := getItemThrows ls;
                  setItemThrows := setItemThrows ls |}.

Definition resetTour (removeItemThrows : string -> bool) (rt : Runtime) : Runtime :=
  match rt with
  | Server => Server
  | Client b =>
      match removeItem removeItemThrows (localStorage b) TOUR_COMPLETED_KEY with
      | Throws => Client (console_error "Failed to reset tour state" b)
      | Returns ls1 =>
          match removeItem removeItemThrows ls1 TOUR_VERSION_KEY with
          | Throws =>
              Client (console_error "Failed to reset tour state" (withStorage ls1 b))
          | Returns ls2 => Client (withStorage ls2 b)
          end
      end
  end.

(** The entries of the storage of a runtime; a server has none. *)
Definition entries (rt : Runtime) : gmap string string :=
  match rt with
  | Server => ∅
  | Client b => items (localStorage b)
  end.

(** The lines written to the error console. *)
Definition errors (rt : Runtime) : list string :=
  match rt with
  | Server => []
  | Client b => console b
  end.

(** Both tour keys can be read. *)
Definition readable (rt : Runtime) : bool :=
  match rt with
  | Server => false
  | Client b =>
      negb (getItemThrows (localStorage b) TOUR_COMPLETED_KEY) &&
      negb (getItemThrows (localStorage b) TOUR_VERSION_KEY)
  end.

(** The two writes of [markTourCompletedAt version] are taken. *)
Definition acceptsWritesAt (version : string) (rt : Runtime) : bool :=
  match rt with
  | Server => false
  | Client b =>
      negb (setItemThrows (localStorage b) TOUR_COMPLETED_KEY "true") &&
      negb (setItemThrows (localStorage b) TOUR_VERSION_KEY version)
  end.

Definition isClient (rt : Runtime) : bool :=
  match rt with Server => false | Client _ => true end.

(** A storage that takes the completion flag but raises on the version
    stamp (the quota is reached between the two writes). *)
Definition stampRejected (m : gmap string string) : Storage :=
  {| items := m;
     getItemThrows := fun _ => false;
     setItemThrows := fun key _ => bool_decide (key = TOUR_VERSION_KEY) |}.

(** The two lines the module writes to the error console. *)
Definition saveFailed : string := "Failed to save tour completion state".
Definition resetFailed : string := "Failed to reset tour state".

End TourStorage.

(** ** lib/tour-definitions *)

Module TourDefinitions.

Inductive TourPosition :=
| top | bottom | left | right | center
| top_start | top_end | bottom_start | bottom_end.

Inductive TourStepType := spotlight | modal.

Record TourStep := {
  id : string;
  type : TourStepType;
  targetId : option string;
  title : string;
  description : string;
  position : TourPosition;
  highlight : option bool
}.

Definition meetingTourSteps : list TourStep := [
  {| id := "welcome"; type := modal; targetId := None;
     title := "Welcome to AI Meeting Assistant";
     description := "Let me show you around the interface. This tour takes about 30 seconds.";
     position := center; highlight := None |};
  {| id := "breathing-orb"; type := spotlight; targetId := Some "breathing-orb";
     title := "The Breathing Orb";
     description := "This orb visualizes the assistant's state. Blue means idle, green means listening, purple means speaking.";
     position := bottom; highlight := Some true |};
  {| id := "status-bar"; type := spotlight; targetId := Some "status-bar";
     title := "Service Status";
     description := "Monitor your connected services here: Whisper for speech recognition, wake word detection, and Piper for text-to-speech.";
     position := bottom; highlight := None |};
  {| id := "meeting-controls"; type := spotlight; targetId := Some "meeting-controls";
     title := "Meeting Controls";
     description := "Mute your mic, manually start recording, or toggle speaker output.";
     position := top; highlight := None |};
  {| id := "record-button"; type := spotlight; targetId := Some "record-button";
     title := "Voice Recording";
     description := "Press to manually record. Or just say your wake word - the assistant is always listening when unmuted.";
     position := top; highlight := None |};
  {| id := "insights-sidebar"; type := spotlight; targetId := Some "insights-sidebar";
     title := "Insights Feed";
     description := "All conversations and AI responses appear here. Scroll through your meeting history.";
     position := left; highlight := None |};
  {| id := "settings-button"; type := spotlight; targetId := Some "settings-button";
     title := "Quick Settings";
     description := "Change your wake word and other preferences here.";
     position := bottom_end; highlight := None |}
].

End TourDefinitions.

(** ** hooks/use-tour *)

Module UseTour.
Import TourStorage TourDefinitions.

(** The three optional host callbacks of the hook. *)
Inductive CallbackSlot := OnStart | OnComplete | OnSkip.

#[global] Instance CallbackSlot_eq_dec : EqDecision CallbackSlot.
Proof. solve_decision. Defined.

Section Hook.
Context {Host : Type}.

(** [() => void]: a callback acts on the host application only. *)
Definition Callback : Type := Host -> Host.

Record UseTourOptions := {
  tourId : string;
  steps : list TourStep;
  autoStart : bool;
  onStart : option Callback;
  onComplete : option Callback;
  onSkip : option Callback
}.

(** The two [useState] cells of the hook, the runtime the page lives in,
    the host state, and the log of callback invocations. A world is read
    in two roles: as the state a render captured, and as the pending state
    that the state setters and the side effects of a handler act on. *)
Record World := {
  isActive : bool;
  currentStep : Z;
  runtime : Runtime;
  host : Host;
  calls : list CallbackSlot
}.

Definition setIsActive (v : bool) (w : World) : World :=
  {| isActive := v; currentStep := currentStep w; runtime := runtime w;
     host := host w; calls := calls w |}.

Definition setCurrentStep (v : Z) (w : World) : World :=
  {| isActive := isActive w; currentStep := v; runtime := runtime w;
     host := host w; calls := calls w |}.

Definition persistCompletion (w : World) : World :=
  {| isActive := isActive w; currentStep := currentStep w;
     runtime := markTourCompleted (runtime w);
     host := host w; calls := calls w |}.

(** [cb?.()] *)
Definition invoke (slot : CallbackSlot) (cb : option Callback) (w : World) : World :=
  match cb with
  | Some f =>
      {| isActive := isActive w; currentStep := currentStep w;
         runtime := runtime w; host := f (host w);
         calls := calls w ++ [slot] |}
  | None => w
  end.

Definition totalSteps (o : UseTourOptions) : Z := Z.of_nat (length (steps o)).

(** [isActive ? steps[currentStep] ?? null : null] *)
Definition currentStepData (o : UseTourOptions) (w : World) : option TourStep :=
  if isActive w then
    if (0 <=? currentStep w)%Z then steps o !! Z.to_nat (currentStep w) else None
  else None.

Definition startTour (o : UseTourOptions) (w : World) : World :=
  invoke OnStart (onStart o) (setIsActive true (setCurrentStep 0 w)).

Definition completeTour (o : UseTourOptions) (w : World) : World :=
  invoke OnComplete (onComplete o)
    (persistCompletion (setCurrentStep 0 (setIsActive false w))).

Definition skipTour (o : UseTourOptions) (w : World) : World :=
  invoke OnSkip (onSkip o)
    (persistCompletion (setCurrentStep 0 (setIsActive false w))).

(** The [nextStep] handler made by the render of [rendered], called on the
    pending state [w]: the test reads the [currentStep] of the closure, the
    update [prev => prev + 1] acts on the pending index. *)
Definition nextStepVia (rendered : World) (o : UseTourOptions) (w : World) : World :=
  if (currentStep rendered >=? totalSteps o - 1)%Z then completeTour o w
  else setCurrentStep (currentStep w + 1) w.

(** Likewise for [prevStep] and [prev => prev - 1]. *)
Definition prevStepVia (rendered : World) (o : UseTourOptions) (w : World) : World :=
  if (currentStep rendered >? 0)%Z then setCurrentStep (currentStep w - 1) w
  else w.

(** One call of the handler of the render of [w], with nothing queued since
    that render. *)
Definition nextStep (o : UseTourOptions) (w : World) : World :=
  nextStepVia w o w.

Definition prevStep (o : UseTourOptions) (w : World) : World :=
  prevStepVia w o w.

Definition goToStep (o : UseTourOptions) (step : Z) (w : World) : World :=
  if (step >=? 0)%Z && (step <? totalSteps o)%Z then setCurrentStep step w
  else w.

(** [useState(false)], [useState(0)] *)
Definition initialWorld (rt : Runtime) (h : Host) : World :=
  {| isActive := false; currentStep := 0; runtime := rt; host := h; calls := [] |}.

(** First render followed by the mount effect. *)
Definition mount (o : UseTourOptions) (rt : Runtime) (h : Host) : World :=
  let w := initialWorld rt h in
  if autoStart o && negb (isActive w) then startTour o w else w.

(** The controls the hook returns. *)
Inductive Control :=
| StartTour | NextStep | PrevStep | SkipTour | GoToStep (step : Z).

(** One control called through the handlers of the render of [w], with
    nothing queued since that render. *)
Definition perform (o : UseTourOptions) (c : Control) (w : World) : World :=
  match c with
  | StartTour => startTour o w
  | NextStep => nextStep o w
  | PrevStep => prevStep o w
  | SkipTour => skipTour o w
  | GoToStep k => goToStep o k w
  end.

(** A run of controls with a render after each: every control goes through
    the handlers of the render of the state the control before it left. *)
Definition performAll (o : UseTourOptions) (cs : list Control) (w : World) : World :=
  foldl (fun acc c => perform o c acc) w cs.

(** The bound the specification attaches to an active tour. *)
Definition stepInRange (o : UseTourOptions) (w : World) : Prop :=
  isActive w = true -> (0 <= currentStep w < totalSteps o)%Z.

(** [n] presses of Next with a render after each: every press goes through
    the handler of the render of the state the press before it left. *)
Definition advance (o : UseTourOptions) (n : nat) (w : World) : World :=
  Nat.iter n (nextStep o) w.

(** A control called through the handlers of the render of [rendered], on
    the pending state [w]. *)
Definition performVia (rendered : World) (o : UseTourOptions) (c : Control)
    (w : World) : World :=
  match c with
  | StartTour => startTour o w
  | NextStep => nextStepVia rendered o w
  | PrevStep => prevStepVia rendered o w
  | SkipTour => skipTour o w
  | GoToStep k => goToStep o k w
  end.

(** The hook between two events: the state its last render captured and
    the pending state. *)
Record Fiber := {
  rendered : World;
  pending : World
}.

(** A render has happened and nothing is queued. *)
Definition settled (w : World) : Fiber := {| rendered := w; pending := w |}.

(** What happens to the hook: a control is called through the handlers of
    the last render, or the component renders again and its new handlers
    capture the pending state. *)
Inductive Event :=
| Call (c : Control)
| Rerender.

Definition react (o : UseTourOptions) (e : Event) (f : Fiber) : Fiber :=
  match e with
  | Call c =>
      {| rendered := rendered f;
         pending := performVia (rendered f) o c (pending f) |}
  | Rerender => {| rendered := pending f; pending := pending f |}
  end.

Definition reactAll (o : UseTourOptions) (es : list Event) (f : Fiber) : Fiber :=
  foldl (fun acc e => react o e acc) f es.

(** [n] presses of Next, the component rendering again after each. *)
Fixpoint pressing (n : nat) : list Event :=
  match n with
  | O => []
  | S n' => Call NextStep :: Rerender :: pressing n'
  end.

(** [n] presses of Next through the handler of one render. *)
Definition pressingAtOnce (n : nat) : list Event := replicate n (Call NextStep).

End Hook.

Arguments UseTourOptions : clear implicits.
Arguments World : clear implicits.
Arguments Fiber : clear implicits.
Arguments Callback : clear implicits.

(** A host that only counts; used for concrete runs. *)
Definition tally : Callback nat := S.

Definition observed (ss : list TourStep) : UseTourOptions nat :=
  {| tourId := "meeting"; steps := ss; autoStart := false;
     onStart := Some tally; onComplete := Some tally; onSkip := Some tally |}.

(** A tour of three steps, and a page showing it at a given step. *)
Definition threeSteps : UseTourOptions nat := observed (take 3 meetingTourSteps).

Definition showing (rt : Runtime) (i : Z) : World nat :=
  {| isActive := true; currentStep := i; runtime := rt; host := 0; calls := [] |}.

Section Visits.
Context {Host : Type}.

Definition withAutoStart (b : bool) (o : UseTourOptions Host) : UseTourOptions Host :=
  {| tourId := tourId o; steps := steps o; autoStart := b;
     onStart := onStart o; onComplete := onComplete o; onSkip := onSkip o |}.

(** A page load that mounts the hook as its documentation shows:
    [autoStart: shouldShowTour()]. *)
Definition visit (o : UseTourOptions Host) (rt : Runtime) (h : Host) : World Host :=
  mount (withAutoStart (shouldShowTour rt) o) rt h.

End Visits.

End UseTour.

(** ** DOM measurements read by the geometry code *)

Module Dom.

(** The fields of a [DOMRect] that the components destructure. *)
Record DOMRect := {
  top : Q; bottom : Q; left : Q; right : Q; width : Q; height : Q
}.

(** [window.innerWidth], [window.innerHeight]. *)
Record Window := { innerWidth : Q; innerHeight : Q }.

(** The element box with the given edges. *)
Definition box (l t r b : Q) : DOMRect :=
  {| top := t; bottom := b; left := l; right := r;
     width := (r - l)%Q; height := (b - t)%Q |}.

End Dom.

(** ** components/tour/tour-spotlight *)

Module Spotlight.
Local Open Scope Q_scope.

(** The commands of an SVG path; the template literal of the source
    prints exactly this sequence. *)
Inductive PathCommand :=
| MoveTo (x y : Q)
| LineTo (x y : Q)
| QuadTo (cx cy x y : Q)
| ClosePath.

Definition calculateSpotlightPath (win : Dom.Window) (rect : Dom.DOMRect)
    (padding borderRadius : Q) : list PathCommand :=
  let w := Dom.innerWidth win in
  let h := Dom.innerHeight win in
  let left := Dom.left rect - padding in
  let top := Dom.top rect - padding in
  let right := Dom.right rect + padding in
  let bottom := Dom.bottom rect + padding in
  let r := Qmin borderRadius (Qmin ((right - left) / 2) ((bottom - top) / 2)) in
  [ MoveTo 0 0; LineTo w 0; LineTo w h; LineTo 0 h; ClosePath;
    MoveTo (left + r) top;
    LineTo (right - r) top;
    QuadTo right top right (top + r);
    LineTo right (bottom - r);
    QuadTo right bottom (right - r) bottom;
    LineTo (left + r) bottom;
    QuadTo left bottom left (bottom - r);
    LineTo left (top + r);
    QuadTo left top (left + r) top;
    ClosePath ].


(** *** Reading a drawn path *)


(** Sub-paths of a path: each runs up to and including its [ClosePath]. *)
Fixpoint subpaths (cur : list PathCommand) (p : list PathCommand)
  : list (list PathCommand) :=
  match p with
  | [] => match cur with [] => [] | _ => [cur] end
  | ClosePath :: rest => (cur ++ [ClosePath]) :: subpaths [] rest
  | c :: rest => subpaths (cur ++ [c]) rest
  end.



(** Every coordinate pair a command mentions (end points and control
    points). *)
Definition points (c : PathCommand) : list (Q * Q) :=
  match c with
  | MoveTo x y => [(x, y)]
  | LineTo x y => [(x, y)]
  | QuadTo cx cy x y => [(cx, cy); (x, y)]
  | ClosePath => []
  end.

(** The smallest and the largest entry of a list of numbers. *)
Definition least (l : list Q) : option Q :=
  match l with
  | [] => None
  | x :: rest => Some (foldl Qmin x rest)
  end.

Definition greatest (l : list Q) : option Q :=
  match l with
  | [] => None
  | x :: rest => Some (foldl Qmax x rest)
  end.

(** The extent [(left, top, right, bottom)] of the points of the cutout
    sub-path. *)
Definition cutoutExtent (p : list PathCommand) : option (Q * Q * Q * Q) :=
  match subpaths [] p with
  | [_; inner] =>
      let pts := flat_map points inner in
      match least (map fst pts), least (map snd pts),
            greatest (map fst pts), greatest (map snd pts) with
      | Some l, Some t, Some r, Some b => Some (l, t, r, b)
      | _, _, _, _ => None
      end
  | _ => None
  end.


(** The polygon through the points of a sub-path in drawing order, and
    twice its signed area (the sum of the cross products of consecutive
    vertices, closing the polygon at its first vertex). In the coordinates
    of the screen, where [y] grows downwards, a positive value is a
    clockwise polygon. *)
Fixpoint crossSum (pts : list (Q * Q)) : Q :=
  match pts with
  | p :: (q :: _) as rest => fst p * snd q - fst q * snd p + crossSum rest
  | _ => 0
  end.

Definition twiceSignedArea (sp : list PathCommand) : Q :=
  match flat_map points sp with
  | [] => 0
  | p0 :: rest => crossSum (p0 :: rest ++ [p0])
  end.

End Spotlight.

(** ** components/tour/tour-tooltip *)

Module Tooltip.
Local Open Scope Q_scope.

Record TooltipSize := { width : Q; height : Q }.

Definition GAP : Q := 16.
Definition TOOLTIP_WIDTH : Q := 320.

(** [{ top: number; left: number }] *)
Record Anchor := { top : Q; left : Q }.

(** The [switch] of [getTooltipPosition]: the anchor asked for by the
    placement, before clamping. [center] never reaches the switch; the
    [default] branch of the source covers it. *)
Definition candidate (targetRect : Dom.DOMRect) (position : TourDefinitions.TourPosition)
    (tooltipSize : TooltipSize) : Anchor :=
  let centerX := Dom.left targetRect + Dom.width targetRect / 2 in
  let centerY := Dom.top targetRect + Dom.height targetRect / 2 in
  match position with
  | TourDefinitions.bottom =>
      {| top := Dom.bottom targetRect + GAP;
         left := centerX - width tooltipSize / 2 |}
  | TourDefinitions.bottom_start =>
      {| top := Dom.bottom targetRect + GAP; left := Dom.left targetRect |}
  | TourDefinitions.bottom_end =>
      {| top := Dom.bottom targetRect + GAP;
         left := Dom.right targetRect - width tooltipSize |}
  | TourDefinitions.top =>
      {| top := Dom.top targetRect - height tooltipSize - GAP;
         left := centerX - width tooltipSize / 2 |}
  | TourDefinitions.top_start =>
      {| top := Dom.top targetRect - height tooltipSize - GAP;
         left := Dom.left targetRect |}
  | TourDefinitions.top_end =>
      {| top := Dom.top targetRect - height tooltipSize - GAP;
         left := Dom.right targetRect - width tooltipSize |}
  | TourDefinitions.left =>
      {| top := centerY - height tooltipSize / 2;
         left := Dom.left targetRect - width tooltipSize - GAP |}
  | TourDefinitions.right =>
      {| top := centerY - height tooltipSize / 2;
         left := Dom.right targetRect + GAP |}
  | TourDefinitions.center =>
      {| top := Dom.bottom targetRect + GAP;
         left := centerX - width tooltipSize / 2 |}
  end.

(** The clamp that ends [getTooltipPosition]. *)
Definition clampToViewport (win : Dom.Window) (tooltipSize : TooltipSize)
    (a : Anchor) : Anchor :=
  let padding := 16 in
  let tooltipLeft :=
    Qmax padding (Qmin (left a) (Dom.innerWidth win - width tooltipSize - padding)) in
  let tooltipTop :=
    Qmax padding (Qmin (top a) (Dom.innerHeight win - height tooltipSize - padding)) in
  {| top := tooltipTop; left := tooltipLeft |}.

Definition isCenter (position : TourDefinitions.TourPosition) : bool :=
  match position with TourDefinitions.center => true | _ => false end.

Definition getTooltipPosition (win : Dom.Window) (targetRect : option Dom.DOMRect)
    (position : TourDefinitions.TourPosition) (tooltipSize : TooltipSize) : Anchor :=
  match targetRect with
  | Some rect =>
      if isCenter position then
        {| top := (Dom.innerHeight win - height tooltipSize) / 2;
           left := (Dom.innerWidth win - width tooltipSize) / 2 |}
      else clampToViewport win tooltipSize (candidate rect position tooltipSize)
  | None =>
      {| top := (Dom.innerHeight win - height tooltipSize) / 2;
         left := (Dom.innerWidth win - width tooltipSize) / 2 |}
  end.

(** The size the tooltip assumes before it has been measured. *)
Definition initialSize : TooltipSize := {| width := TOOLTIP_WIDTH; height := 200 |}.

(** The tooltip rectangle lies inside the viewport shrunk by [inset] on
    every side. *)
Definition withinInset (win : Dom.Window) (tooltipSize : TooltipSize) (inset : Q)
    (a : Anchor) : Prop :=
  inset <= left a /\ left a + width tooltipSize <= Dom.innerWidth win - inset /\
  inset <= top a /\ top a + height tooltipSize <= Dom.innerHeight win - inset.

(** The tooltip and both insets fit into the viewport. *)
Definition fits (win : Dom.Window) (tooltipSize : TooltipSize) (inset : Q) : Prop :=
  width tooltipSize + 2 * inset <= Dom.innerWidth win /\
  height tooltipSize + 2 * inset <= Dom.innerHeight win.

(** What "offset from the relevant target edge by [gap]" means for each
    directional placement. *)
Definition offsetFromEdge (gap : Q) (targetRect : Dom.DOMRect)
    (position : TourDefinitions.TourPosition) (tooltipSize : TooltipSize)
    (a : Anchor) : Prop :=
  match position with
  | TourDefinitions.bottom | TourDefinitions.bottom_start | TourDefinitions.bottom_end =>
      top a == Dom.bottom targetRect + gap
  | TourDefinitions.top | TourDefinitions.top_start | TourDefinitions.top_end =>
      top a + height tooltipSize == Dom.top targetRect - gap
  | TourDefinitions.left =>
      left a + width tooltipSize == Dom.left targetRect - gap
  | TourDefinitions.right =>
      left a == Dom.right targetRect + gap
  | TourDefinitions.center => False
  end.

(** What the placement asks for across the axis of the gap: the tooltip
    centred on the centre line of the target, or flush with its start or
    end edge. *)
Definition alignedAcross (targetRect : Dom.DOMRect)
    (position : TourDefinitions.TourPosition) (tooltipSize : TooltipSize)
    (a : Anchor) : Prop :=
  match position with
  | TourDefinitions.bottom | TourDefinitions.top =>
      left a + width tooltipSize / 2 ==
        Dom.left targetRect + Dom.width targetRect / 2
  | TourDefinitions.bottom_start | TourDefinitions.top_start =>
      left a == Dom.left targetRect
  | TourDefinitions.bottom_end | TourDefinitions.top_end =>
      left a + width tooltipSize == Dom.right targetRect
  | TourDefinitions.left | TourDefinitions.right =>
      top a + height tooltipSize / 2 ==
        Dom.top targetRect + Dom.height targetRect / 2
  | TourDefinitions.center => False
  end.

End Tooltip.

(** ** components/tour/tour-provider *)

Module TourProvider.
Import TourStorage TourDefinitions UseTour.

(** The double quote. *)
Definition dquote : string := String (Ascii.ascii_of_nat 34) EmptyString.

(** The selector the provider queries for a target id. *)
Definition selectorFor (targetId : string) : string :=
  "[data-tour-id=" +:+ dquote +:+ targetId +:+ dquote +:+ "]".

(** The keys the [keydown] listener has a case for. *)
Definition handledKeys : list string := ["Escape"; "ArrowRight"; "Enter"; "ArrowLeft"].

Section Keys.
Context {Host : Type}.

(** The [keydown] listener: whether it called [preventDefault], and the
    world it leaves. *)
Definition handleKeyDown (o : UseTourOptions Host) (key : string) (w : World Host)
  : bool * World Host :=
  if negb (isActive w) then (false, w)
  else if bool_decide (key = "Escape") then (true, skipTour o w)
  else if bool_decide (key = "ArrowRight") || bool_decide (key = "Enter")
       then (true, nextStep o w)
  else if bool_decide (key = "ArrowLeft") then (true, prevStep o w)
  else (false, w).

(** The listener is on [window] only while the tour is active. *)
Definition keydown (o : UseTourOptions Host) (key : string) (w : World Host)
  : bool * World Host :=
  if isActive w then handleKeyDown o key w else (false, w).

End Keys.

Section Document.
Context {Element Document : Type}.
(** The DOM as the provider uses it: [document.activeElement],
    [element.focus()], [document.querySelector]. *)
Context (activeElement : Document -> option Element)
        (focus : Element -> Document -> Document)
        (querySelector : Document -> string -> option Element).

(** The page around the hook: the document, the provider's
    [previousFocusRef], and the log of the [focus()] calls the provider
    made. *)
Record Page := {
  document : Document;
  previousFocusRef : option Element;
  focusCalls : list Element
}.

(** [previousFocusRef.current = document.activeElement] *)
Definition storeFocus (p : Page) : Page :=
  {| document := document p;
     previousFocusRef := activeElement (document p);
     focusCalls := focusCalls p |}.

(** [previousFocusRef.current?.focus()] *)
Definition restoreFocus (p : Page) : Page :=
  match previousFocusRef p with
  | Some e =>
      {| document := focus e (document p);
         previousFocusRef := previousFocusRef p;
         focusCalls := focusCalls p ++ [e] |}
  | None => p
  end.

(** A callback prop of the provider, run on the document: [onComplete?.()]. *)
Definition forward (cb : option (Document -> Document)) (p : Page) : Page :=
  match cb with
  | Some f =>
      {| document := f (document p);
         previousFocusRef := previousFocusRef p;
         focusCalls := focusCalls p |}
  | None => p
  end.

(** The options the provider passes to [useTour]. *)
Definition providerOptions (tourId : string) (steps : list TourStep) (autoStart : bool)
    (onComplete onSkip : option (Document -> Document)) : UseTourOptions Page :=
  {| UseTour.tourId := tourId;
     UseTour.steps := steps;
     UseTour.autoStart := autoStart;
     UseTour.onStart := Some storeFocus;
     UseTour.onComplete := Some (fun p => forward onComplete (restoreFocus p));
     UseTour.onSkip := Some (fun p => forward onSkip (restoreFocus p)) |}.

(** The provider's focus bookkeeping relative to a tour start: the ref
    still holds what was focused at the start, and every [focus()] call made
    since went to that element. *)
Definition focusKept (atStart : option Element) (callsAtStart : list Element)
    (p : Page) : Prop :=
  previousFocusRef p = atStart /\
  exists restored,
    focusCalls p = callsAtStart ++ restored /\
    Forall (fun e => atStart = Some e) restored.

Section Rendering.
Context {Host : Type}.

(** The memoised [targetElement]; [doc] is [None] where [document] is
    undefined. The second component is whether the missing target was
    reported with [console.warn]. *)
Definition targetLookup (doc : option Document) (o : UseTourOptions Host)
    (w : World Host) : option Element * bool :=
  match doc with
  | None => (None, false)
  | Some d =>
      if negb (isActive w) then (None, false)
      else
        match currentStepData o w with
        | None => (None, false)
        | Some s =>
            match type s, targetId s with
            | modal, _ => (None, false)
            | spotlight, None => (None, false)
            | spotlight, Some tid =>
                if bool_decide (tid = "") then (None, false)
                else
                  match querySelector d (selectorFor tid) with
                  | Some e => (Some e, false)
                  | None => (None, true)
                  end
            end
        end
  end.

Definition targetElement (doc : option Document) (o : UseTourOptions Host)
    (w : World Host) : option Element :=
  fst (targetLookup doc o w).

(** What [renderOverlay] puts into the portal. *)
Record Overlay := {
  announcedStep : Z;
  announcedTotal : Z;
  announcedTitle : string;
  spotlightTarget : option Element;
  spotlightVisible : bool;
  modalBackdrop : bool;
  tooltipTarget : option Element;
  tooltipPosition : TourPosition;
  tooltipTitle : string;
  tooltipDescription : string;
  tooltipCurrentStep : Z;
  tooltipTotalSteps : Z
}.

Definition isSpotlightType (t : TourStepType) : bool :=
  match t with spotlight => true | modal => false end.

Definition isModalType (t : TourStepType) : bool :=
  match t with modal => true | spotlight => false end.

Definition renderOverlay (isMounted : bool) (doc : option Document)
    (o : UseTourOptions Host) (w : World Host) : option Overlay :=
  if negb isMounted || negb (isActive w) then None
  else
    match currentStepData o w with
    | None => None
    | Some s =>
        let target := targetElement doc o w in
        let isSpotlight :=
          isSpotlightType (type s) && bool_decide (target <> None) in
        Some {| announcedStep := currentStep w + 1;
                announcedTotal := totalSteps o;
                announcedTitle := title s;
                spotlightTarget := target;
                spotlightVisible := isSpotlight;
                modalBackdrop := isModalType (type s);
                tooltipTarget := target;
                tooltipPosition := position s;
                tooltipTitle := title s;
                tooltipDescription := description s;
                tooltipCurrentStep := currentStep w;
                tooltipTotalSteps := totalSteps o |}
    end.

End Rendering.
End Document.

Arguments Page : clear implicits.
Arguments Overlay : clear implicits.

End TourProvider.

(** ** components/tour/tour-tooltip: controls and focus trap *)

Module TourTooltip.

Section Trap.
Context {Element : Type} `{EqDecision Element}.

(** The [keydown] handler of the tooltip. [tooltipRef] is [None] while the
    tooltip is not mounted, and otherwise lists what
    [getFocusableElements] finds in it, in document order. The result is
    whether [preventDefault] was called and on which element [focus()]
    was. *)
Definition handleKeyDown (tooltipRef : option (list Element)) (key : string)
    (shiftKey : bool) (active : option Element) : bool * option Element :=
  if negb (bool_decide (key = "Tab")) then (false, None)
  else
    match tooltipRef with
    | None => (false, None)
    | Some focusable =>
        match head focusable, last focusable with
        | Some first, Some lst =>
            if shiftKey then
              if bool_decide (active = Some first) then (true, Some lst)
              else (false, None)
            else
              if bool_decide (active = Some lst) then (true, Some first)
              else (false, None)
        | _, _ => (false, None)
        end
    end.

End Trap.

Definition isFirstStep (currentStep : Z) : bool := (currentStep =? 0)%Z.

Definition isLastStep (currentStep totalSteps : Z) : bool :=
  (currentStep =? totalSteps - 1)%Z.

(** The Back button is rendered. *)
Definition showsBack (currentStep : Z) : bool := negb (isFirstStep currentStep).

(** The label of the Next button. *)
Definition nextLabel (currentStep totalSteps : Z) : string :=
  if isLastStep currentStep totalSteps then "Done" else "Next".

End TourTooltip.

(** ** components/tour/tour-progress *)

Module TourProgress.

(** The three looks of a dot: [bg-primary], [bg-primary/50],
    [bg-muted-foreground/30]. *)
Inductive DotStyle := Current | Passed | Ahead.

#[global] Instance DotStyle_eq_dec : EqDecision DotStyle.
Proof. solve_decision. Defined.

Definition dotStyle (current : Z) (i : Z) : DotStyle :=
  if (i =? current)%Z then Current
  else if (i <? current)%Z then Passed
  else Ahead.

(** [Array.from({ length: total }).map((_, i) => ...)] *)
Definition dots (current total : Z) : list DotStyle :=
  map (fun i : nat => dotStyle current (Z.of_nat i)) (seq 0 (Z.to_nat total)).

Definition ariaValueNow (current : Z) : Z := (current + 1)%Z.
Definition ariaValueMin : Z := 1%Z.
Definition ariaValueMax (total : Z) : Z := total.

End TourProgress.

(** * Properties *)

(** ** The persistence gate *)

Module TourStorageSpec.
Import TourStorage.

Lemma getItem_throws ls key :
  getItem ls key = Throws <-> getItemThrows ls key = true.
Proof. unfold getItem. destruct (getItemThrows ls key); split; congruence. Qed.

Lemma getItem_reliable m key : getItem (reliable m) key = Returns (m !! key).
Proof. reflexivity. Qed.

Lemma isTourCompleted_client b :
  isTourCompleted (Client b) = true <->
  getItem (localStorage b) TOUR_COMPLETED_KEY = Returns (Some "true").
Proof.
  cbn [isTourCompleted].
  destruct (getItem (localStorage b) TOUR_COMPLETED_KEY) as [v|]; [|split; discriminate].
  rewrite bool_decide_eq_true. split; congruence.
Qed.

Lemma shouldShowTourAt_client version b :
  shouldShowTourAt version (Client b) = true <->
  isTourCompleted (Client b) = false \/ getTourVersion (Client b) <> Some version.
Proof.
  unfold shouldShowTourAt.
  destruct (isTourCompleted (Client b)); cbn [negb].
  - case_bool_decide as Hv.
    + split; [intros _; now right | reflexivity].
    + split; [discriminate | intros [?|?]; [discriminate | contradiction]].
  - split; [intros _; now left | reflexivity].
Qed.

(** C5, as the code has it: on a client a throwing read yields [false], and
    [true] is only ever the result of a successful read of the string
    "true"; without a [window] the function answers [true]. *)
Theorem isTourCompleted_fail_safe_on_client_only :
  (forall b, getItem (localStorage b) TOUR_COMPLETED_KEY = Throws ->
             isTourCompleted (Client b) = false) /\
  (forall b, isTourCompleted (Client b) = true ->
             getItem (localStorage b) TOUR_COMPLETED_KEY = Returns (Some "true")) /\
  isTourCompleted Server = true.
Proof.
  split; [|split].
  - intros b Hthrow. cbn [isTourCompleted]. now rewrite Hthrow.
  - intros b. apply isTourCompleted_client.
  - reflexivity.
Qed.

(** C5 as stated fails: with the storage backend unavailable because there
    is no [window], the answer is "completed". *)
Lemma isTourCompleted_server_reports_completed :
  isTourCompleted Server <> false.
Proof. discriminate. Qed.

(** C4, as the code has it: on a client the gate opens exactly when the
    tour is not completed or the stored version differs from the current
    one; in particular it opens when nothing is recorded, stays shut for a
    record completed at version [V] asked at [V], and opens for that
    record asked at any other version. Without a [window] it stays shut. *)
Theorem shouldShowTour_gate_on_client :
  (forall b, shouldShowTour (Client b) = true <->
     isTourCompleted (Client b) = false \/
     getTourVersion (Client b) <> Some CURRENT_TOUR_VERSION) /\
  (forall version b, shouldShowTourAt version (Client b) = true <->
     isTourCompleted (Client b) = false \/
     getTourVersion (Client b) <> Some version) /\
  (forall version b, storedCompleted (localStorage b) = None ->
     shouldShowTourAt version (Client b) = true) /\
  (forall (m : gmap string string) V,
     m !! TOUR_COMPLETED_KEY = Some "true" -> m !! TOUR_VERSION_KEY = Some V ->
     shouldShowTourAt V (Client (browserOf (reliable m))) = false /\
     forall V', V' <> V ->
       shouldShowTourAt V' (Client (browserOf (reliable m))) = true) /\
  (forall version, shouldShowTourAt version Server = false).
Proof.
  split; [|split; [|split; [|split]]].
  - intros b. apply shouldShowTourAt_client.
  - intros version b. apply shouldShowTourAt_client.
  - intros version b Hnone. apply shouldShowTourAt_client. left.
    destruct (isTourCompleted (Client b)) eqn:Hc; [|reflexivity].
    apply isTourCompleted_client in Hc. unfold getItem in Hc.
    destruct (getItemThrows (localStorage b) TOUR_COMPLETED_KEY); [discriminate|].
    unfold storedCompleted in Hnone. congruence.
  - intros m V Hc Hv.
    assert (Hdone : isTourCompleted (Client (browserOf (reliable m))) = true).
    { apply isTourCompleted_client. cbn. now rewrite Hc. }
    assert (Hver : getTourVersion (Client (browserOf (reliable m))) = Some V).
    { cbn. exact Hv. }
    split.
    + apply not_true_is_false. intros Hshow.
      apply shouldShowTourAt_client in Hshow as [Hn|Hn]; congruence.
    + intros V' Hne. apply shouldShowTourAt_client. right. congruence.
  - reflexivity.
Qed.

(** C4 as stated fails: without a [window] nothing is recorded as completed
    for the page, yet the gate stays shut. *)
Lemma shouldShowTour_server_breaks_iff :
  persistedRecord Server = None /\
  getTourVersion Server <> Some CURRENT_TOUR_VERSION /\
  shouldShowTour Server = false /\
  ~ (shouldShowTour Server = true <->
     isTourCompleted Server = false \/
     getTourVersion Server <> Some CURRENT_TOUR_VERSION).
Proof.
  split; [reflexivity|]. split; [discriminate|]. split; [reflexivity|].
  intros [_ Hback].
  assert (H : shouldShowTour Server = true) by (apply Hback; right; discriminate).
  discriminate H.
Qed.

Lemma isTourCompleted_fail_safe_on_client_only_witness :
  isTourCompleted
    (Client (browserOf (denied {[ TOUR_COMPLETED_KEY := "true" ]}))) = false.
Proof.
  apply (proj1 isTourCompleted_fail_safe_on_client_only). reflexivity.
Defined.

Lemma shouldShowTour_gate_on_client_witness :
  let m : gmap string string :=
    <[ TOUR_COMPLETED_KEY := "true" ]> {[ TOUR_VERSION_KEY := "1.0.0" ]} in
  shouldShowTourAt "1.0.0" (Client (browserOf (reliable m))) = false /\
  shouldShowTourAt "1.1.0" (Client (browserOf (reliable m))) = true.
Proof.
  intros m.
  destruct (proj1 (proj2 (proj2 (proj2 shouldShowTour_gate_on_client)))
              m "1.0.0" eq_refl eq_refl) as [Hshut Hopen].
  split; [exact Hshut | apply Hopen; discriminate].
Defined.

End TourStorageSpec.

(** ** The tour state machine *)

Module UseTourSpec.
Import TourStorage TourDefinitions UseTour.
Local Open Scope Z_scope.

Lemma markTourCompleted_records rt :
  acceptsCompletionWrite rt = true ->
  persistedRecord (markTourCompleted rt) =
    Some (Some "true", Some CURRENT_TOUR_VERSION).
Proof.
  destruct rt as [|b]; [discriminate|].
  cbn [acceptsCompletionWrite]. intros [H1 H2]%andb_prop.
  apply negb_true_iff in H1, H2.
  unfold markTourCompleted, markTourCompletedAt, setItem.
  rewrite H1. cbn [setItemThrows]. rewrite H2.
  unfold persistedRecord, storedCompleted, storedVersion. cbn [withStorage localStorage items].
  rewrite lookup_insert_eq, lookup_insert_ne by discriminate.
  now rewrite lookup_insert_eq.
Qed.

Section Machine.
Context {Host : Type}.
Implicit Types (o : UseTourOptions Host) (w : World Host).

Lemma calls_invoke slot (cb : option (Callback Host)) w :
  calls (invoke slot cb w) =
    calls w ++ match cb with Some _ => [slot] | None => [] end.
Proof. destruct cb; cbn; [reflexivity | now rewrite app_nil_r]. Qed.

Lemma isActive_invoke slot (cb : option (Callback Host)) w :
  isActive (invoke slot cb w) = isActive w.
Proof. now destruct cb. Qed.

Lemma currentStep_invoke slot (cb : option (Callback Host)) w :
  currentStep (invoke slot cb w) = currentStep w.
Proof. now destruct cb. Qed.

Lemma runtime_invoke slot (cb : option (Callback Host)) w :
  runtime (invoke slot cb w) = runtime w.
Proof. now destruct cb. Qed.

Lemma nextStep_last o w :
  currentStep w >= totalSteps o - 1 -> nextStep o w = completeTour o w.
Proof.
  intros Hlast. unfold nextStep, nextStepVia.
  destruct (Z.geb_spec (currentStep w) (totalSteps o - 1)); [reflexivity | lia].
Qed.

Lemma nextStep_inner o w :
  currentStep w < totalSteps o - 1 ->
  nextStep o w = setCurrentStep (currentStep w + 1) w.
Proof.
  intros Hin. unfold nextStep, nextStepVia.
  destruct (Z.geb_spec (currentStep w) (totalSteps o - 1)); [lia | reflexivity].
Qed.

Lemma stepInRange_startTour o w :
  steps o <> [] -> stepInRange o (startTour o w).
Proof.
  intros Hne _. unfold startTour.
  rewrite currentStep_invoke. cbn. unfold totalSteps.
  destruct (steps o); [contradiction | cbn [length]; lia].
Qed.

Lemma stepInRange_inactive o w : isActive w = false -> stepInRange o w.
Proof. intros Hoff Hon. congruence. Qed.

Lemma stepInRange_nextStep o w : stepInRange o w -> stepInRange o (nextStep o w).
Proof.
  intros Hinv. unfold nextStep, nextStepVia.
  destruct (Z.geb_spec (currentStep w) (totalSteps o - 1)) as [Hlast|Hin].
  - apply stepInRange_inactive. unfold completeTour.
    now rewrite isActive_invoke.
  - intros Hon. cbn in *. specialize (Hinv Hon). lia.
Qed.

Lemma stepInRange_prevStep o w : stepInRange o w -> stepInRange o (prevStep o w).
Proof.
  intros Hinv. unfold prevStep, prevStepVia.
  destruct (Z.gtb_spec (currentStep w) 0) as [Hpos|Hzero]; [|exact Hinv].
  intros Hon. cbn in *. specialize (Hinv Hon). lia.
Qed.

Lemma goToStep_in_range o k w :
  0 <= k < totalSteps o -> goToStep o k w = setCurrentStep k w.
Proof.
  intros [Hlo Hhi]. unfold goToStep.
  destruct (Z.geb_spec k 0); [|lia].
  destruct (Z.ltb_spec k (totalSteps o)); [reflexivity | lia].
Qed.

Lemma stepInRange_goToStep o k w : stepInRange o w -> stepInRange o (goToStep o k w).
Proof.
  intros Hinv. unfold goToStep.
  destruct (Z.geb_spec k 0) as [Hlo|Hlo]; [|exact Hinv].
  destruct (Z.ltb_spec k (totalSteps o)) as [Hhi|Hhi]; [|exact Hinv].
  intros _. cbn. lia.
Qed.

Lemma stepInRange_skipTour o w : stepInRange o (skipTour o w).
Proof.
  apply stepInRange_inactive. unfold skipTour. now rewrite isActive_invoke.
Qed.


(** On a catalog that has a step every run of the controls, with a render
    after each, keeps the bound. *)
Lemma stepInRange_performAll o (cs : list Control) w :
  steps o <> [] -> stepInRange o w -> stepInRange o (performAll o cs w).
Proof.
  intros Hne. revert w. induction cs as [|c cs IH]; intros w Hinv; [exact Hinv|].
  cbn. apply IH. destruct c; cbn [perform].
  - now apply stepInRange_startTour.
  - now apply stepInRange_nextStep.
  - now apply stepInRange_prevStep.
  - apply stepInRange_skipTour.
  - now apply stepInRange_goToStep.
Qed.

(** In particular every world so reached from the first render of a tour
    that has a step keeps the bound. *)
Lemma stepInRange_reachable o (cs : list Control) rt (h : Host) :
  steps o <> [] -> stepInRange o (performAll o cs (mount o rt h)).
Proof.
  intros Hne. apply stepInRange_performAll; [exact Hne|].
  unfold mount. destruct (autoStart o && negb (isActive (initialWorld rt h))).
  - now apply stepInRange_startTour.
  - now apply stepInRange_inactive.
Qed.

End Machine.



Section Runs.
Context {Host : Type}.
Implicit Types (o : UseTourOptions Host) (w : World Host).

Lemma setCurrentStep_same w : setCurrentStep (currentStep w) w = w.
Proof. now destruct w. Qed.

Lemma advance_S o n w : advance o (S n) w = nextStep o (advance o n w).
Proof. reflexivity. Qed.

(** Below the last step, [k] presses of Next move [k] steps forward and
    touch nothing else. *)
Lemma advance_inner o (k : nat) w :
  currentStep w + Z.of_nat k <= totalSteps o - 1 ->
  advance o k w = setCurrentStep (currentStep w + Z.of_nat k) w.
Proof.
  induction k as [|k IH]; intros Hk.
  - cbn [advance Nat.iter]. rewrite Z.add_0_r. symmetry. apply setCurrentStep_same.
  - rewrite advance_S, IH by lia.
    rewrite nextStep_inner by (cbn; lia).
    unfold setCurrentStep. cbn. f_equal. lia.
Qed.

Lemma count_occ_calls_invoke slot (cb : option (Callback Host)) w s :
  count_occ CallbackSlot_eq_dec (calls (invoke slot cb w)) s =
    (count_occ CallbackSlot_eq_dec (calls w) s +
       match cb with
       | Some _ => if CallbackSlot_eq_dec slot s then 1 else 0
       | None => 0
       end)%nat.
Proof.
  rewrite calls_invoke, count_occ_app. f_equal.
  destruct cb; cbn; [|reflexivity].
  now destruct (CallbackSlot_eq_dec slot s).
Qed.

(** Starting the tour and pressing Next as often as the catalog is long,
    with a render after each press. *)
Lemma advance_through_catalog o w (cb : Callback Host) :
  (1 <= length (steps o))%nat ->
  onComplete o = Some cb ->
  let started := startTour o w in
  let finished := advance o (length (steps o)) started in
  isActive finished = false /\
  currentStep finished = 0 /\
  calls finished = calls started ++ [OnComplete] /\
  host finished = cb (host started) /\
  count_occ CallbackSlot_eq_dec (calls finished) OnComplete =
    S (count_occ CallbackSlot_eq_dec (calls w) OnComplete).
Proof.
  intros Hn Hcb started finished.
  assert (Hidx : currentStep started = 0)
    by (unfold started, startTour; now rewrite currentStep_invoke).
  assert (Hfin : finished =
            completeTour o (setCurrentStep (totalSteps o - 1) started)).
  { unfold finished. destruct (length (steps o)) as [|n] eqn:Hlen; [lia|].
    assert (Htot : totalSteps o = Z.of_nat (S n)) by (unfold totalSteps; now rewrite Hlen).
    rewrite advance_S, advance_inner by lia.
    rewrite nextStep_last by (cbn; lia).
    replace (currentStep started + Z.of_nat n) with (totalSteps o - 1) by lia.
    reflexivity. }
  rewrite Hfin. unfold completeTour.
  rewrite isActive_invoke, currentStep_invoke, count_occ_calls_invoke, calls_invoke, Hcb.
  cbn [invoke persistCompletion setCurrentStep setIsActive isActive currentStep calls host].
  repeat split.
  unfold started, startTour. rewrite count_occ_calls_invoke.
  cbn [setIsActive setCurrentStep calls].
  destruct (onStart o); cbn; lia.
Qed.

(** Presses with a render after each, as events of the hook. *)
Lemma reactAll_pressing o (n : nat) w :
  reactAll o (pressing n) (settled w) = settled (advance o n w).
Proof.
  revert w. induction n as [|n IH]; intros w; [reflexivity|].
  unfold advance. rewrite Nat.iter_succ_r. cbn [pressing reactAll foldl].
  exact (IH (nextStep o w)).
Qed.

Lemma reactAll_start o (f : Fiber Host) :
  reactAll o [Call StartTour; Rerender] f = settled (startTour o (pending f)).
Proof. reflexivity. Qed.

(** C2, as the code has it: on a catalog of [n >= 1] steps, starting the
    tour and then pressing Next [n] times, each press going through the
    handler of the render that followed the press before it, leaves the
    tour inactive at index 0, and the only callback those presses invoke is
    [onComplete], once. *)
Theorem presses_between_renders_complete_once o (f : Fiber Host) (cb : Callback Host) :
  (1 <= length (steps o))%nat ->
  onComplete o = Some cb ->
  let started := reactAll o [Call StartTour; Rerender] f in
  let finished := pending (reactAll o (pressing (length (steps o))) started) in
  isActive finished = false /\
  currentStep finished = 0 /\
  calls finished = calls (pending started) ++ [OnComplete] /\
  host finished = cb (host (pending started)) /\
  count_occ CallbackSlot_eq_dec (calls finished) OnComplete =
    S (count_occ CallbackSlot_eq_dec (calls (pending f)) OnComplete).
Proof.
  intros Hn Hcb started finished. unfold finished, started.
  rewrite reactAll_start, reactAll_pressing. cbn [settled pending].
  exact (advance_through_catalog o (pending f) cb Hn Hcb).
Qed.

(** C3, as the code has it: from an active state at any step, [skipTour]
    leaves the tour inactive at index 0, applies [markTourCompleted] to the
    storage and invokes [onSkip] and nothing else; [nextStep] on the last
    step does the same with [onComplete] and nothing else; and whenever the
    storage takes the two writes, the record they leave is completed at the
    current version. *)
Theorem skip_and_completion_persist_and_notify o w (cbSkip cbComplete : Callback Host) :
  isActive w = true ->
  onSkip o = Some cbSkip ->
  onComplete o = Some cbComplete ->
  (isActive (skipTour o w) = false /\
   currentStep (skipTour o w) = 0 /\
   runtime (skipTour o w) = markTourCompleted (runtime w) /\
   calls (skipTour o w) = calls w ++ [OnSkip] /\
   host (skipTour o w) = cbSkip (host w) /\
   (acceptsCompletionWrite (runtime w) = true ->
    persistedRecord (runtime (skipTour o w)) =
      Some (Some "true", Some CURRENT_TOUR_VERSION))) /\
  (currentStep w >= totalSteps o - 1 ->
   isActive (nextStep o w) = false /\
   currentStep (nextStep o w) = 0 /\
   runtime (nextStep o w) = markTourCompleted (runtime w) /\
   calls (nextStep o w) = calls w ++ [OnComplete] /\
   host (nextStep o w) = cbComplete (host w) /\
   (acceptsCompletionWrite (runtime w) = true ->
    persistedRecord (runtime (nextStep o w)) =
      Some (Some "true", Some CURRENT_TOUR_VERSION))).
Proof.
  intros _ Hskip Hcomplete. split.
  - unfold skipTour.
    rewrite !runtime_invoke, !calls_invoke, !isActive_invoke, !currentStep_invoke, Hskip.
    cbn [invoke persistCompletion setCurrentStep setIsActive runtime calls isActive
         currentStep host].
    repeat split. intros Hacc. apply (markTourCompleted_records _ Hacc).
  - intros Hlast. rewrite (nextStep_last o w Hlast). unfold completeTour.
    rewrite !runtime_invoke, !calls_invoke, !isActive_invoke, !currentStep_invoke, Hcomplete.
    cbn [invoke persistCompletion setCurrentStep setIsActive runtime calls isActive
         currentStep host].
    repeat split. intros Hacc. apply (markTourCompleted_records _ Hacc).
Qed.

(** C8: stepping back from the first step changes nothing at all (state,
    storage, host and callback log); from a later step it moves one step
    back and stays active. *)
Theorem prevStep_retreats_or_stays o w :
  isActive w = true ->
  (currentStep w = 0 -> prevStep o w = w) /\
  (0 < currentStep w ->
     isActive (prevStep o w) = true /\
     currentStep (prevStep o w) = currentStep w - 1 /\
     runtime (prevStep o w) = runtime w /\
     host (prevStep o w) = host w /\
     calls (prevStep o w) = calls w).
Proof.
  intros Hon. unfold prevStep, prevStepVia. split.
  - intros Hzero. rewrite Hzero. reflexivity.
  - intros Hpos. destruct (Z.gtb_spec (currentStep w) 0); [|lia].
    cbn. now rewrite Hon.
Qed.

(** C9: an index outside [0, totalSteps) leaves the whole world as it
    was; [goToStep] has no failure outcome. *)
Theorem goToStep_out_of_range_ignored o (k : Z) w :
  k < 0 \/ totalSteps o <= k ->
  goToStep o k w = w.
Proof.
  intros Hout. unfold goToStep.
  destruct (Z.geb_spec k 0); [|reflexivity].
  destruct (Z.ltb_spec k (totalSteps o)); [lia | reflexivity].
Qed.

(** C10: [goToStep] never changes [isActive]; with the tour inactive an
    index in range is still stored, and the tour stays inactive. *)
Theorem goToStep_keeps_isActive o (k : Z) w :
  isActive (goToStep o k w) = isActive w /\
  (0 <= k < totalSteps o -> isActive w = false ->
     currentStep (goToStep o k w) = k /\ isActive (goToStep o k w) = false).
Proof.
  split.
  - unfold goToStep.
    destruct ((k >=? 0) && (k <? totalSteps o)); reflexivity.
  - intros Hin Hoff. rewrite (goToStep_in_range o k w Hin). cbn. now split.
Qed.

End Runs.

Lemma presses_between_renders_complete_once_witness :
  let started :=
    reactAll threeSteps [Call StartTour; Rerender] (settled (initialWorld Server 0%nat)) in
  let finished := pending (reactAll threeSteps (pressing 3) started) in
  isActive finished = false /\
  currentStep finished = 0 /\
  calls finished = [OnStart; OnComplete] /\
  host finished = 2%nat /\
  count_occ CallbackSlot_eq_dec (calls finished) OnComplete = 1%nat.
Proof.
  apply (presses_between_renders_complete_once threeSteps
           (settled (initialWorld Server 0%nat)) tally).
  - simpl. lia.
  - reflexivity.
Defined.

(** C2 as stated fails when the presses go through the handler of one
    render: each of them tests the index that render captured, so three
    presses on a tour of three steps leave it active at index 3 and
    [onComplete] is not invoked. *)
Lemma presses_through_one_render_do_not_complete :
  let started :=
    reactAll threeSteps [Call StartTour; Rerender] (settled (initialWorld Server 0%nat)) in
  let after :=
    pending (reactAll threeSteps [Call NextStep; Call NextStep; Call NextStep] started) in
  length (steps threeSteps) = 3%nat /\
  isActive after = true /\
  currentStep after = 3 /\
  calls after = [OnStart] /\
  count_occ CallbackSlot_eq_dec (calls after) OnComplete = 0%nat.
Proof. repeat split. Qed.

Lemma skip_and_completion_persist_and_notify_witness :
  let middle := showing (Client (browserOf (reliable ∅))) 1 in
  let final := showing (Client (browserOf (reliable ∅))) 2 in
  persistedRecord (runtime (skipTour threeSteps middle)) =
    Some (Some "true", Some CURRENT_TOUR_VERSION) /\
  calls (skipTour threeSteps middle) = [OnSkip] /\
  persistedRecord (runtime (nextStep threeSteps final)) =
    Some (Some "true", Some CURRENT_TOUR_VERSION) /\
  calls (nextStep threeSteps final) = [OnComplete].
Proof.
  intros middle final.
  destruct (skip_and_completion_persist_and_notify threeSteps middle tally tally
              eq_refl eq_refl eq_refl) as [(_ & _ & _ & Hcalls & _ & Hrec) _].
  destruct (skip_and_completion_persist_and_notify threeSteps final tally tally
              eq_refl eq_refl eq_refl) as [_ Hlast].
  destruct Hlast as (_ & _ & _ & Hcalls' & _ & Hrec'); [vm_compute; discriminate|].
  split; [apply Hrec; reflexivity|]. split; [exact Hcalls|].
  split; [apply Hrec'; reflexivity | exact Hcalls'].
Defined.

(** C3 as stated fails when the storage rejects the write: the tour is
    left, [onSkip] runs, and nothing is persisted, so the gate opens again
    on the next visit. *)
Lemma skipTour_rejected_write_persists_nothing :
  let w := showing (Client (browserOf (quotaExceeded ∅))) 1 in
  isActive w = true /\
  persistedRecord (runtime (skipTour threeSteps w)) <>
    Some (Some "true", Some CURRENT_TOUR_VERSION) /\
  shouldShowTour (runtime (skipTour threeSteps w)) = true.
Proof.
  split; [reflexivity|]. split; [|reflexivity].
  vm_compute. discriminate.
Qed.

Lemma prevStep_retreats_or_stays_witness :
  prevStep threeSteps (showing Server 0) = showing Server 0 /\
  currentStep (prevStep threeSteps (showing Server 2)) = 1.
Proof.
  split.
  - apply (prevStep_retreats_or_stays threeSteps (showing Server 0) eq_refl).
    reflexivity.
  - apply (prevStep_retreats_or_stays threeSteps (showing Server 2) eq_refl).
    simpl. lia.
Defined.

Lemma goToStep_out_of_range_ignored_witness :
  goToStep threeSteps 3 (showing Server 1) = showing Server 1 /\
  goToStep threeSteps (-1) (showing Server 1) = showing Server 1.
Proof.
  split.
  - apply (goToStep_out_of_range_ignored threeSteps 3 (showing Server 1)).
    right. vm_compute. discriminate.
  - apply (goToStep_out_of_range_ignored threeSteps (-1) (showing Server 1)).
    left. lia.
Defined.

Lemma goToStep_keeps_isActive_witness :
  currentStep (goToStep threeSteps 2 (initialWorld Server 0%nat)) = 2 /\
  isActive (goToStep threeSteps 2 (initialWorld Server 0%nat)) = false.
Proof.
  apply (goToStep_keeps_isActive threeSteps 2 (initialWorld Server 0%nat)).
  - vm_compute. split; [discriminate | reflexivity].
  - reflexivity.
Defined.

End UseTourSpec.

(** ** The spotlight cutout *)

Module SpotlightSpec.
Import Spotlight.
Local Open Scope Q_scope.



End SpotlightSpec.

(** ** The tooltip anchor *)

Module TooltipSpec.
Import Tooltip.
Local Open Scope Q_scope.

Lemma clamp_lower lo hi x : lo <= Qmax lo (Qmin x hi).
Proof. apply Q.le_max_l. Qed.

Lemma clamp_upper lo hi x : lo <= hi -> Qmax lo (Qmin x hi) <= hi.
Proof. intros Hroom. apply Q.max_lub; [exact Hroom | apply Q.le_min_r]. Qed.

Lemma clamp_inside lo hi x : lo <= x -> x <= hi -> Qmax lo (Qmin x hi) == x.
Proof.
  intros Hlo Hhi. rewrite (Q.min_l x hi Hhi). now apply Q.max_r.
Qed.

Lemma getTooltipPosition_directional win rect position size :
  isCenter position = false ->
  getTooltipPosition win (Some rect) position size =
    clampToViewport win size (candidate rect position size).
Proof. intros Hdir. unfold getTooltipPosition. now rewrite Hdir. Qed.

Lemma candidate_offsetFromEdge rect position size :
  isCenter position = false ->
  offsetFromEdge 16 rect position size (candidate rect position size).
Proof.
  intros Hdir. destruct position; try discriminate Hdir;
    cbn [offsetFromEdge candidate top left]; unfold GAP; ring.
Qed.

(** C7, as the code has it: for a directional placement the wanted anchor
    sits 16 units off the relevant target edge; the returned anchor is
    that anchor clamped, per axis, first from above by
    [viewport - size - 16] and then from below by 16. It is never left of
    or above the 16-unit inset; whenever the tooltip and both insets fit
    into the viewport it lies within the inset on all four sides, whatever
    the placement asked for; and an anchor already within the inset is
    returned as it is. For a 320 x 200 tooltip placed [right] of a target
    whose right edge is at 780 in an 800-wide viewport the wanted left
    796 becomes 464. *)
Theorem tooltip_offset_then_clamped :
  (forall win rect position size,
     isCenter position = false ->
     let wanted := candidate rect position size in
     let a := getTooltipPosition win (Some rect) position size in
     offsetFromEdge 16 rect position size wanted /\
     left a == Qmax 16 (Qmin (left wanted) (Dom.innerWidth win - width size - 16)) /\
     top a == Qmax 16 (Qmin (top wanted) (Dom.innerHeight win - height size - 16)) /\
     16 <= left a /\ 16 <= top a /\
     (fits win size 16 -> withinInset win size 16 a) /\
     (withinInset win size 16 wanted ->
        left a == left wanted /\ top a == top wanted)) /\
  (forall t b l wd ht vh,
     let rect := {| Dom.top := t; Dom.bottom := b; Dom.left := l;
                    Dom.right := 780; Dom.width := wd; Dom.height := ht |} in
     let win := {| Dom.innerWidth := 800; Dom.innerHeight := vh |} in
     let size := {| width := 320; height := 200 |} in
     left (candidate rect TourDefinitions.right size) == 796 /\
     left (getTooltipPosition win (Some rect) TourDefinitions.right size) == 464).
Proof.
  split.
  - intros win rect position size Hdir wanted a.
    unfold a. rewrite (getTooltipPosition_directional _ _ _ _ Hdir).
    fold wanted. cbn [clampToViewport left top].
    split; [now apply candidate_offsetFromEdge|].
    split; [reflexivity|]. split; [reflexivity|].
    split; [apply clamp_lower|]. split; [apply clamp_lower|].
    split.
    + intros [Hw Hh]. unfold withinInset. cbn [clampToViewport left top].
      assert (Hx := clamp_upper 16 (Dom.innerWidth win - width size - 16)
                      (left wanted)).
      assert (Hy := clamp_upper 16 (Dom.innerHeight win - height size - 16)
                      (top wanted)).
      repeat split; try apply clamp_lower.
      * assert (Hr : 16 <= Dom.innerWidth win - width size - 16) by lra.
        specialize (Hx Hr). lra.
      * assert (Hr : 16 <= Dom.innerHeight win - height size - 16) by lra.
        specialize (Hy Hr). lra.
    + intros (Hl & Hr & Ht & Hb). split; apply clamp_inside; lra.
  - intros t b l wd ht vh rect win size. split; reflexivity.
Qed.

Lemma tooltip_offset_then_clamped_witness :
  let win := {| Dom.innerWidth := 800; Dom.innerHeight := 600 |} in
  let rect := Dom.box 700 100 780 150 in
  let a := getTooltipPosition win (Some rect) TourDefinitions.right initialSize in
  left a == 464 /\ withinInset win initialSize 16 a.
Proof.
  intros win rect a.
  destruct (proj1 tooltip_offset_then_clamped win rect TourDefinitions.right
              initialSize eq_refl) as (_ & _ & _ & _ & _ & Hin & _).
  split.
  - reflexivity.
  - apply Hin. split; vm_compute; discriminate.
Defined.

(** C7 as stated fails when the viewport is narrower than the tooltip plus
    both insets: the lower bound wins and the tooltip runs past the right
    inset. *)
Lemma narrow_viewport_tooltip_overflows :
  let win := {| Dom.innerWidth := 300; Dom.innerHeight := 600 |} in
  let rect := Dom.box 100 100 200 150 in
  let a := getTooltipPosition win (Some rect) TourDefinitions.right initialSize in
  isCenter TourDefinitions.right = false /\
  left a == 16 /\
  ~ withinInset win initialSize 16 a.
Proof.
  intros win rect a. split; [reflexivity|]. split; [reflexivity|].
  intros (_ & Hright & _). vm_compute in Hright. now apply Hright.
Qed.

End TooltipSpec.

(** ** The persistence gate: saving, resetting and their composition *)

Module TourStorageLaws.
Import TourStorage.

Lemma markTourCompletedAt_client version b :
  markTourCompletedAt version (Client b) =
    if setItemThrows (localStorage b) TOUR_COMPLETED_KEY "true"
    then Client (console_error saveFailed b)
    else
      let ls1 := {| items := <[TOUR_COMPLETED_KEY := "true"]> (items (localStorage b));
                    getItemThrows := getItemThrows (localStorage b);
                    setItemThrows := setItemThrows (localStorage b) |} in
      if setItemThrows (localStorage b) TOUR_VERSION_KEY version
      then Client (console_error saveFailed (withStorage ls1 b))
      else Client (withStorage
                     {| items := <[TOUR_VERSION_KEY := version]> (items ls1);
                        getItemThrows := getItemThrows (localStorage b);
                        setItemThrows := setItemThrows (localStorage b) |} b).
Proof.
  unfold markTourCompletedAt, setItem.
  destruct (setItemThrows (localStorage b) TOUR_COMPLETED_KEY "true"); [reflexivity|].
  cbn [setItemThrows].
  destruct (setItemThrows (localStorage b) TOUR_VERSION_KEY version); reflexivity.
Qed.

Lemma keys_differ : TOUR_VERSION_KEY <> TOUR_COMPLETED_KEY.
Proof. discriminate. Qed.

Lemma readable_client b :
  readable (Client b) = true ->
  getItemThrows (localStorage b) TOUR_COMPLETED_KEY = false /\
  getItemThrows (localStorage b) TOUR_VERSION_KEY = false.
Proof.
  cbn [readable]. intros [H1 H2]%andb_prop.
  now apply negb_true_iff in H1, H2.
Qed.

Lemma acceptsWritesAt_client version b :
  acceptsWritesAt version (Client b) = true ->
  setItemThrows (localStorage b) TOUR_COMPLETED_KEY "true" = false /\
  setItemThrows (localStorage b) TOUR_VERSION_KEY version = false.
Proof.
  cbn [acceptsWritesAt]. intros [H1 H2]%andb_prop.
  now apply negb_true_iff in H1, H2.
Qed.

(** What the readers see of a client, when the keys can be read. *)
Lemma readers_when_readable b :
  readable (Client b) = true ->
  isTourCompleted (Client b) = bool_decide (storedCompleted (localStorage b) = Some "true") /\
  getTourVersion (Client b) = storedVersion (localStorage b).
Proof.
  intros [Hc Hv]%readable_client.
  unfold isTourCompleted, getTourVersion, getItem. now rewrite Hc, Hv.
Qed.

Lemma shouldShowTourAt_readable version b :
  readable (Client b) = true ->
  shouldShowTourAt version (Client b) =
    negb (bool_decide (storedCompleted (localStorage b) = Some "true")) ||
    bool_decide (storedVersion (localStorage b) <> Some version).
Proof.
  intros Hr. unfold shouldShowTourAt.
  destruct (readers_when_readable b Hr) as [-> ->].
  destruct (bool_decide (storedCompleted (localStorage b) = Some "true"));
    cbn [negb orb]; [|reflexivity].
  now destruct (bool_decide (storedVersion (localStorage b) <> Some version)).
Qed.

(** X1: once [markTourCompleted] has run at version [V] on a client whose
    storage takes the writes and can be read, the tour reads as completed
    at [V], and the gate asked at [V'] opens exactly when [V'] differs
    from [V]. *)
Theorem saved_completion_shuts_gate_until_version_bump (V V' : string) rt :
  acceptsWritesAt V rt = true ->
  readable rt = true ->
  isTourCompleted (markTourCompletedAt V rt) = true /\
  getTourVersion (markTourCompletedAt V rt) = Some V /\
  (shouldShowTourAt V' (markTourCompletedAt V rt) = true <-> V' <> V).
Proof.
  destruct rt as [|b]; [discriminate|]. intros Hw Hr.
  destruct (acceptsWritesAt_client V b Hw) as [Hw1 Hw2].
  rewrite markTourCompletedAt_client, Hw1. cbn zeta. rewrite Hw2.
  set (b' := withStorage _ b).
  assert (Hr' : readable (Client b') = true) by exact Hr.
  assert (Hc : storedCompleted (localStorage b') = Some "true").
  { unfold b', storedCompleted. cbn [withStorage localStorage items].
    rewrite lookup_insert_ne by exact keys_differ. apply lookup_insert_eq. }
  assert (Hv : storedVersion (localStorage b') = Some V).
  { unfold b', storedVersion. cbn [withStorage localStorage items].
    apply lookup_insert_eq. }
  rewrite (shouldShowTourAt_readable V' b' Hr').
  destruct (readers_when_readable b' Hr') as [-> ->].
  rewrite Hc, Hv. split; [now rewrite bool_decide_eq_true|]. split; [reflexivity|].
  rewrite (bool_decide_true (Some "true" = Some "true")) by reflexivity. cbn [negb orb].
  rewrite bool_decide_eq_true. split; intros H; congruence.
Qed.

Lemma saved_completion_shuts_gate_until_version_bump_witness :
  let rt := Client (browserOf (reliable ∅)) in
  isTourCompleted (markTourCompletedAt "1.0.0" rt) = true /\
  getTourVersion (markTourCompletedAt "1.0.0" rt) = Some "1.0.0" /\
  (shouldShowTourAt "1.1.0" (markTourCompletedAt "1.0.0" rt) = true <-> "1.1.0" <> "1.0.0").
Proof.
  apply (saved_completion_shuts_gate_until_version_bump "1.0.0" "1.1.0"
           (Client (browserOf (reliable ∅)))); reflexivity.
Defined.

Lemma resetTour_client f b :
  resetTour f (Client b) =
    if f TOUR_COMPLETED_KEY then Client (console_error resetFailed b)
    else
      let ls1 := {| items := delete TOUR_COMPLETED_KEY (items (localStorage b));
                    getItemThrows := getItemThrows (localStorage b);
                    setItemThrows := setItemThrows (localStorage b) |} in
      if f TOUR_VERSION_KEY
      then Client (console_error resetFailed (withStorage ls1 b))
      else Client (withStorage
                     {| items := delete TOUR_VERSION_KEY (items ls1);
                        getItemThrows := getItemThrows (localStorage b);
                        setItemThrows := setItemThrows (localStorage b) |} b).
Proof.
  unfold resetTour, removeItem.
  destruct (f TOUR_COMPLETED_KEY); [reflexivity|].
  destruct (f TOUR_VERSION_KEY); reflexivity.
Qed.

Lemma stamp_twice (m : gmap string string) (a v : string) :
  <[TOUR_VERSION_KEY := v]>
    (<[TOUR_COMPLETED_KEY := a]>
       (<[TOUR_VERSION_KEY := v]> (<[TOUR_COMPLETED_KEY := a]> m))) =
  <[TOUR_VERSION_KEY := v]> (<[TOUR_COMPLETED_KEY := a]> m).
Proof.
  apply map_eq. intros k. rewrite !lookup_insert.
  repeat case_decide; reflexivity.
Qed.

Lemma erase_after_flag (m : gmap string string) (a : string) :
  delete TOUR_VERSION_KEY (delete TOUR_COMPLETED_KEY (<[TOUR_COMPLETED_KEY := a]> m)) =
  delete TOUR_VERSION_KEY (delete TOUR_COMPLETED_KEY m).
Proof.
  apply map_eq. intros k. rewrite !lookup_delete, !lookup_insert.
  repeat case_decide; reflexivity.
Qed.

Lemma erase_after_stamp (m : gmap string string) (a v : string) :
  delete TOUR_VERSION_KEY
    (delete TOUR_COMPLETED_KEY
       (<[TOUR_VERSION_KEY := v]> (<[TOUR_COMPLETED_KEY := a]> m))) =
  delete TOUR_VERSION_KEY (delete TOUR_COMPLETED_KEY m).
Proof.
  apply map_eq. intros k. rewrite !lookup_delete, !lookup_insert.
  repeat case_decide; reflexivity.
Qed.

(** X2: saving twice stores what saving once stores, on every runtime and
    whichever of the writes raise; when the writes are taken the second
    save changes nothing at all. *)
Theorem markTourCompleted_idempotent (V : string) rt :
  entries (markTourCompletedAt V (markTourCompletedAt V rt)) =
    entries (markTourCompletedAt V rt) /\
  (acceptsWritesAt V rt = true ->
   markTourCompletedAt V (markTourCompletedAt V rt) = markTourCompletedAt V rt).
Proof.
  destruct rt as [|b]; [split; [reflexivity | discriminate]|].
  rewrite (markTourCompletedAt_client V b).
  destruct (setItemThrows (localStorage b) TOUR_COMPLETED_KEY "true") eqn:H1.
  - split; [|cbn; rewrite H1; discriminate].
    rewrite markTourCompletedAt_client. cbn [console_error localStorage].
    now rewrite H1.
  - cbn zeta. destruct (setItemThrows (localStorage b) TOUR_VERSION_KEY V) eqn:H2.
    + split; [|cbn; rewrite H1, H2; discriminate].
      rewrite markTourCompletedAt_client.
      cbn [console_error withStorage localStorage setItemThrows items].
      rewrite H1. cbn zeta. rewrite H2. cbn [entries console_error withStorage localStorage items].
      apply insert_insert_eq.
    + rewrite markTourCompletedAt_client.
      cbn [withStorage localStorage setItemThrows items].
      rewrite H1. cbn zeta. rewrite H2.
      cbn [entries withStorage localStorage items console].
      rewrite stamp_twice. split; [reflexivity|]. intros _. reflexivity.
Qed.

Lemma markTourCompleted_idempotent_witness :
  let rt := Client (browserOf (reliable {[ "theme" := "dark" ]})) in
  markTourCompletedAt "1.0.0" (markTourCompletedAt "1.0.0" rt) =
    markTourCompletedAt "1.0.0" rt.
Proof.
  apply (markTourCompleted_idempotent "1.0.0"
           (Client (browserOf (reliable {[ "theme" := "dark" ]})))).
  reflexivity.
Defined.

(** X3: saving and resetting touch no entry but the two tour keys, on every
    runtime and whichever calls raise. *)
Theorem tour_storage_touches_only_its_keys f (V : string) rt (key : string) :
  key <> TOUR_COMPLETED_KEY ->
  key <> TOUR_VERSION_KEY ->
  entries (markTourCompletedAt V rt) !! key = entries rt !! key /\
  entries (resetTour f rt) !! key = entries rt !! key.
Proof.
  intros Hc Hv. destruct rt as [|b]; [split; reflexivity|]. split.
  - rewrite markTourCompletedAt_client.
    destruct (setItemThrows (localStorage b) TOUR_COMPLETED_KEY "true"); [reflexivity|].
    cbn zeta. destruct (setItemThrows (localStorage b) TOUR_VERSION_KEY V);
      cbn [entries console_error withStorage localStorage items];
      now rewrite ?lookup_insert_ne by congruence.
  - rewrite resetTour_client.
    destruct (f TOUR_COMPLETED_KEY); [reflexivity|].
    cbn zeta. destruct (f TOUR_VERSION_KEY);
      cbn [entries console_error withStorage localStorage items];
      now rewrite ?lookup_delete_ne by congruence.
Qed.

Lemma tour_storage_touches_only_its_keys_witness :
  let rt := Client (browserOf (reliable {[ "theme" := "dark" ]})) in
  entries (markTourCompletedAt "1.0.0" rt) !! "theme" = entries rt !! "theme" /\
  entries (resetTour (fun _ => false) rt) !! "theme" = entries rt !! "theme".
Proof.
  apply (tour_storage_touches_only_its_keys (fun _ => false) "1.0.0"
           (Client (browserOf (reliable {[ "theme" := "dark" ]}))) "theme");
    discriminate.
Defined.

(** X4: on a client where the completion flag can be removed, a reset makes
    the tour read as not completed and opens the gate at every version, even
    when the second removal or the reads raise. *)
Theorem resetTour_reopens_gate f (V : string) rt :
  isClient rt = true ->
  f TOUR_COMPLETED_KEY = false ->
  isTourCompleted (resetTour f rt) = false /\
  shouldShowTourAt V (resetTour f rt) = true.
Proof.
  destruct rt as [|b]; [discriminate|]. intros _ Hf.
  assert (Hdone : isTourCompleted (resetTour f (Client b)) = false).
  { rewrite resetTour_client, Hf. cbn zeta.
    destruct (f TOUR_VERSION_KEY);
      cbn [isTourCompleted console_error withStorage localStorage];
      unfold getItem; cbn [getItemThrows items];
      (destruct (getItemThrows (localStorage b) TOUR_COMPLETED_KEY); [reflexivity|]);
      apply bool_decide_eq_false;
      rewrite ?lookup_delete_ne by exact keys_differ;
      rewrite lookup_delete_eq; discriminate. }
  split; [exact Hdone|].
  rewrite resetTour_client, Hf in *. cbn zeta in *.
  destruct (f TOUR_VERSION_KEY); unfold shouldShowTourAt; now rewrite Hdone.
Qed.

Lemma resetTour_reopens_gate_witness :
  let rt := markTourCompleted (Client (browserOf (reliable ∅))) in
  shouldShowTour rt = false /\
  isTourCompleted (resetTour (fun _ => false) rt) = false /\
  shouldShowTourAt "1.0.0" (resetTour (fun _ => false) rt) = true.
Proof.
  split; [reflexivity|].
  apply (resetTour_reopens_gate (fun _ => false) "1.0.0"
           (markTourCompleted (Client (browserOf (reliable ∅))))); reflexivity.
Defined.

(** X5: when both removals are taken, resetting after a save leaves exactly
    what resetting alone leaves, namely the old entries without the two tour
    keys, whether or not the save went through. *)
Theorem resetTour_undoes_markTourCompleted f (V : string) rt :
  f TOUR_COMPLETED_KEY = false ->
  f TOUR_VERSION_KEY = false ->
  entries (resetTour f (markTourCompletedAt V rt)) =
    delete TOUR_VERSION_KEY (delete TOUR_COMPLETED_KEY (entries rt)) /\
  entries (resetTour f rt) =
    delete TOUR_VERSION_KEY (delete TOUR_COMPLETED_KEY (entries rt)).
Proof.
  intros Hc Hv. destruct rt as [|b].
  - cbn. now rewrite !delete_empty.
  - split.
    + rewrite markTourCompletedAt_client.
      destruct (setItemThrows (localStorage b) TOUR_COMPLETED_KEY "true").
      * rewrite resetTour_client, Hc. cbn zeta. now rewrite Hv.
      * cbn zeta. destruct (setItemThrows (localStorage b) TOUR_VERSION_KEY V);
          rewrite resetTour_client, Hc; cbn zeta; rewrite Hv;
          cbn [entries console_error withStorage localStorage items].
        -- apply erase_after_flag.
        -- apply erase_after_stamp.
    + rewrite resetTour_client, Hc. cbn zeta. now rewrite Hv.
Qed.

Lemma resetTour_undoes_markTourCompleted_witness :
  let rt := Client (browserOf (reliable {[ "theme" := "dark" ]})) in
  entries (resetTour (fun _ => false) (markTourCompletedAt "1.0.0" rt)) =
    delete TOUR_VERSION_KEY (delete TOUR_COMPLETED_KEY (entries rt)) /\
  entries (resetTour (fun _ => false) rt) =
    delete TOUR_VERSION_KEY (delete TOUR_COMPLETED_KEY (entries rt)).
Proof.
  apply (resetTour_undoes_markTourCompleted (fun _ => false) "1.0.0"
           (Client (browserOf (reliable {[ "theme" := "dark" ]})))); reflexivity.
Defined.

(** X6: a save writes one line to the error console when it runs on a
    client and one of its writes raises, and none otherwise; it never
    raises itself. *)
Theorem markTourCompleted_logs_failure_once (V : string) rt :
  errors (markTourCompletedAt V rt) =
    errors rt ++
    (if isClient rt && negb (acceptsWritesAt V rt) then [saveFailed] else []).
Proof.
  destruct rt as [|b]; [reflexivity|].
  rewrite markTourCompletedAt_client. cbn [isClient acceptsWritesAt andb].
  destruct (setItemThrows (localStorage b) TOUR_COMPLETED_KEY "true"); [reflexivity|].
  cbn zeta. destruct (setItemThrows (localStorage b) TOUR_VERSION_KEY V); cbn.
  - reflexivity.
  - now rewrite app_nil_r.
Qed.

(** X7: when the completion flag is written but the version stamp is
    rejected, the tour reads as completed at whatever version was stored
    before; the gate at [V] then opens exactly when that older stamp is not
    [V]. *)
Theorem rejected_stamp_keeps_old_version (V : string) b :
  setItemThrows (localStorage b) TOUR_COMPLETED_KEY "true" = false ->
  setItemThrows (localStorage b) TOUR_VERSION_KEY V = true ->
  readable (Client b) = true ->
  isTourCompleted (markTourCompletedAt V (Client b)) = true /\
  getTourVersion (markTourCompletedAt V (Client b)) = getTourVersion (Client b) /\
  (shouldShowTourAt V (markTourCompletedAt V (Client b)) = true <->
   getTourVersion (Client b) <> Some V).
Proof.
  intros H1 H2 Hr.
  rewrite markTourCompletedAt_client, H1. cbn zeta. rewrite H2.
  set (b' := console_error _ _).
  assert (Hr' : readable (Client b') = true) by exact Hr.
  assert (Hc : storedCompleted (localStorage b') = Some "true")
    by apply lookup_insert_eq.
  assert (Hv : storedVersion (localStorage b') = storedVersion (localStorage b)).
  { unfold b', storedVersion. cbn [console_error withStorage localStorage items].
    apply lookup_insert_ne. intros Heq. symmetry in Heq. exact (keys_differ Heq). }
  rewrite (shouldShowTourAt_readable V b' Hr').
  destruct (readers_when_readable b' Hr') as [-> ->].
  destruct (readers_when_readable b Hr) as [_ ->].
  rewrite Hc, Hv. split; [now rewrite bool_decide_eq_true|]. split; [reflexivity|].
  rewrite (bool_decide_true (Some "true" = Some "true")) by reflexivity. cbn [negb orb].
  apply bool_decide_eq_true.
Qed.

Lemma rejected_stamp_keeps_old_version_witness :
  let b := browserOf (stampRejected ∅) in
  isTourCompleted (markTourCompletedAt "1.0.0" (Client b)) = true /\
  getTourVersion (markTourCompletedAt "1.0.0" (Client b)) = getTourVersion (Client b) /\
  (shouldShowTourAt "1.0.0" (markTourCompletedAt "1.0.0" (Client b)) = true <->
   getTourVersion (Client b) <> Some "1.0.0").
Proof.
  apply (rejected_stamp_keeps_old_version "1.0.0" (browserOf (stampRejected ∅)));
    reflexivity.
Defined.

Lemma gate_after_save (V V' : string) rt :
  acceptsWritesAt V rt = true ->
  readable rt = true ->
  readable (markTourCompletedAt V rt) = true /\
  shouldShowTourAt V' (markTourCompletedAt V rt) = bool_decide (V' <> V).
Proof.
  destruct rt as [|b]; [discriminate|]. intros Hw Hr.
  destruct (acceptsWritesAt_client V b Hw) as [Hw1 Hw2].
  rewrite markTourCompletedAt_client, Hw1. cbn zeta. rewrite Hw2.
  set (b' := withStorage _ b).
  assert (Hr' : readable (Client b') = true) by exact Hr.
  split; [exact Hr'|].
  rewrite (shouldShowTourAt_readable V' b' Hr').
  assert (Hc : storedCompleted (localStorage b') = Some "true").
  { unfold b', storedCompleted. cbn [withStorage localStorage items].
    rewrite lookup_insert_ne by exact keys_differ. apply lookup_insert_eq. }
  assert (Hv : storedVersion (localStorage b') = Some V) by apply lookup_insert_eq.
  rewrite Hc, Hv.
  rewrite (bool_decide_true (Some "true" = Some "true")) by reflexivity. cbn [negb orb].
  apply bool_decide_ext. split; congruence.
Qed.

Lemma gate_shut_after_markTourCompleted rt :
  acceptsCompletionWrite rt = true ->
  readable rt = true ->
  shouldShowTour (markTourCompleted rt) = false.
Proof.
  intros Hw Hr. unfold shouldShowTour, markTourCompleted.
  destruct (gate_after_save CURRENT_TOUR_VERSION CURRENT_TOUR_VERSION rt Hw Hr) as [_ ->].
  now apply bool_decide_eq_false.
Qed.

End TourStorageLaws.

(** ** The tour state machine: what the controls touch and how they compose *)

Module UseTourLaws.
Import TourStorage TourDefinitions UseTour TourStorageLaws.
Local Open Scope Z_scope.

Section Laws.
Context {Host : Type}.
Implicit Types (o : UseTourOptions Host) (w : World Host).

Lemma invoke_fields slot (cb : option (Callback Host)) w :
  isActive (invoke slot cb w) = isActive w /\
  currentStep (invoke slot cb w) = currentStep w /\
  runtime (invoke slot cb w) = runtime w.
Proof. now destruct cb. Qed.

Lemma nextStep_cases o w :
  nextStep o w =
    if (currentStep w >=? totalSteps o - 1) then completeTour o w
    else setCurrentStep (currentStep w + 1) w.
Proof. reflexivity. Qed.

Lemma inactive_unless_started o (c : Control) w :
  c <> StartTour -> isActive w = false -> isActive (perform o c w) = false.
Proof.
  intros Hc Hoff. destruct c as [| | | |k]; cbn [perform]; [contradiction| | | |].
  - rewrite nextStep_cases. destruct (currentStep w >=? totalSteps o - 1).
    + unfold completeTour.
      now destruct (invoke_fields OnComplete (onComplete o)
                      (persistCompletion (setCurrentStep 0 (setIsActive false w))))
        as [-> _].
    + exact Hoff.
  - unfold prevStep, prevStepVia. now destruct (currentStep w >? 0).
  - unfold skipTour.
    now destruct (invoke_fields OnSkip (onSkip o)
                    (persistCompletion (setCurrentStep 0 (setIsActive false w))))
      as [-> _].
  - unfold goToStep. now destruct ((k >=? 0) && (k <? totalSteps o)).
Qed.

(** X8: no control but [startTour] ever activates the tour. *)
Theorem only_startTour_activates o (c : Control) w :
  c <> StartTour ->
  isActive (perform o c w) = true ->
  isActive w = true.
Proof.
  intros Hc. destruct c as [| | | |k]; cbn [perform]; [contradiction| | | |].
  - unfold nextStep, nextStepVia, completeTour.
    destruct (currentStep w >=? totalSteps o - 1).
    + destruct (invoke_fields OnComplete (onComplete o)
                  (persistCompletion (setCurrentStep 0 (setIsActive false w)))) as [-> _].
      cbn. discriminate.
    + cbn. auto.
  - unfold prevStep, prevStepVia. destruct (currentStep w >? 0); cbn; auto.
  - unfold skipTour.
    destruct (invoke_fields OnSkip (onSkip o)
                (persistCompletion (setCurrentStep 0 (setIsActive false w)))) as [-> _].
    cbn. discriminate.
  - unfold goToStep. destruct ((k >=? 0) && (k <? totalSteps o)); cbn; auto.
Qed.

(** X9: moving between steps, that is [prevStep], [goToStep], and
    [nextStep] before the last step, writes nothing to the storage, runs no
    host callback and leaves [isActive] as it was; [startTour] writes
    nothing to the storage either. *)
Theorem navigation_leaves_storage_and_host_alone o (c : Control) w :
  c = PrevStep \/ (exists k, c = GoToStep k) \/
  (c = NextStep /\ currentStep w < totalSteps o - 1) ->
  runtime (perform o c w) = runtime w /\
  host (perform o c w) = host w /\
  calls (perform o c w) = calls w /\
  isActive (perform o c w) = isActive w /\
  runtime (startTour o w) = runtime w.
Proof.
  intros Hc.
  assert (Hstart : runtime (startTour o w) = runtime w).
  { unfold startTour.
    now destruct (invoke_fields OnStart (onStart o)
                    (setIsActive true (setCurrentStep 0 w))) as (_ & _ & ->). }
  destruct Hc as [-> | [[k ->] | [-> Hin]]]; cbn [perform].
  - unfold prevStep, prevStepVia. destruct (currentStep w >? 0); cbn; auto.
  - unfold goToStep. destruct ((k >=? 0) && (k <? totalSteps o)); cbn; auto.
  - rewrite nextStep_cases.
    destruct (Z.geb_spec (currentStep w) (totalSteps o - 1)); [lia|]. cbn. auto.
Qed.

Lemma nextStepVia_inner (r : World Host) o w :
  currentStep r < totalSteps o - 1 ->
  nextStepVia r o w = setCurrentStep (currentStep w + 1) w.
Proof.
  intros Hin. unfold nextStepVia.
  destruct (Z.geb_spec (currentStep r) (totalSteps o - 1)); [lia | reflexivity].
Qed.

Lemma nextStepVia_last (r : World Host) o w :
  currentStep r >= totalSteps o - 1 -> nextStepVia r o w = completeTour o w.
Proof.
  intros Hlast. unfold nextStepVia.
  destruct (Z.geb_spec (currentStep r) (totalSteps o - 1)); [reflexivity | lia].
Qed.

Lemma prevStepVia_later (r : World Host) o w :
  0 < currentStep r -> prevStepVia r o w = setCurrentStep (currentStep w - 1) w.
Proof.
  intros Hpos. unfold prevStepVia.
  destruct (Z.gtb_spec (currentStep r) 0); [reflexivity | lia].
Qed.

Lemma prevStepVia_first (r : World Host) o w :
  currentStep r <= 0 -> prevStepVia r o w = w.
Proof.
  intros Hzero. unfold prevStepVia.
  destruct (Z.gtb_spec (currentStep r) 0); [lia | reflexivity].
Qed.

Lemma setCurrentStep_twice (a b : Z) w :
  a = currentStep w -> setCurrentStep a (setCurrentStep b w) = w.
Proof. intros ->. now destruct w. Qed.

(** X10: Next and Back undo each other. With a render between the two
    calls, Back after Next restores the world from every step below the
    last, and Next after Back from every step above the first. Called
    through the handlers of one render they still undo each other strictly
    between the first and the last step; at the first step they do not:
    Back tests the index 0 its render captured, and the tour stays at
    step 1. *)
Theorem next_and_back_undo_each_other o w :
  (0 <= currentStep w < totalSteps o - 1 ->
   pending (reactAll o [Call NextStep; Rerender; Call PrevStep] (settled w)) = w) /\
  (0 < currentStep w <= totalSteps o - 1 ->
   pending (reactAll o [Call PrevStep; Rerender; Call NextStep] (settled w)) = w) /\
  (0 < currentStep w < totalSteps o - 1 ->
   pending (reactAll o [Call NextStep; Call PrevStep] (settled w)) = w /\
   pending (reactAll o [Call PrevStep; Call NextStep] (settled w)) = w) /\
  (currentStep w = 0 -> 1 < totalSteps o ->
   pending (reactAll o [Call NextStep; Call PrevStep] (settled w)) =
     setCurrentStep 1 w).
Proof.
  cbn [reactAll foldl react performVia settled rendered pending].
  split; [|split; [|split]].
  - intros [Hlo Hhi]. rewrite (nextStepVia_inner w o w) by lia.
    rewrite prevStepVia_later by (cbn; lia).
    apply setCurrentStep_twice. cbn. lia.
  - intros [Hlo Hhi]. rewrite (prevStepVia_later w o w) by lia.
    rewrite nextStepVia_inner by (cbn; lia).
    apply setCurrentStep_twice. cbn. lia.
  - intros [Hlo Hhi]. split.
    + rewrite (nextStepVia_inner w o w), prevStepVia_later by lia.
      apply setCurrentStep_twice. cbn. lia.
    + rewrite (prevStepVia_later w o w), nextStepVia_inner by lia.
      apply setCurrentStep_twice. cbn. lia.
  - intros Hzero Hlong. rewrite (nextStepVia_inner w o w), prevStepVia_first by lia.
    now rewrite Hzero.
Qed.

End Laws.

Lemma only_startTour_activates_witness :
  isActive (showing Server 0) = true.
Proof.
  apply (only_startTour_activates threeSteps NextStep (showing Server 0)).
  - discriminate.
  - reflexivity.
Defined.

Lemma navigation_leaves_storage_and_host_alone_witness :
  let w := showing (Client (browserOf (reliable ∅))) 1 in
  runtime (perform threeSteps NextStep w) = runtime w /\
  host (perform threeSteps NextStep w) = host w /\
  calls (perform threeSteps NextStep w) = calls w /\
  isActive (perform threeSteps NextStep w) = isActive w /\
  runtime (startTour threeSteps w) = runtime w.
Proof.
  apply (navigation_leaves_storage_and_host_alone threeSteps NextStep
           (showing (Client (browserOf (reliable ∅))) 1)).
  right. right. split; [reflexivity | vm_compute; reflexivity].
Defined.

Lemma next_and_back_undo_each_other_witness :
  pending (reactAll threeSteps [Call NextStep; Rerender; Call PrevStep]
             (settled (showing Server 0))) = showing Server 0 /\
  pending (reactAll threeSteps [Call PrevStep; Rerender; Call NextStep]
             (settled (showing Server 2))) = showing Server 2 /\
  pending (reactAll threeSteps [Call NextStep; Call PrevStep]
             (settled (showing Server 0))) = showing Server 1.
Proof.
  destruct (next_and_back_undo_each_other threeSteps (showing Server 0))
    as (Hnext & _ & _ & Hstale).
  destruct (next_and_back_undo_each_other threeSteps (showing Server 2))
    as (_ & Hback & _).
  split; [apply Hnext; vm_compute; split; [discriminate | reflexivity]|].
  split; [apply Hback; vm_compute; split; [reflexivity | discriminate]|].
  apply Hstale; reflexivity.
Defined.

Section Journeys.
Context {Host : Type}.
Implicit Types (o : UseTourOptions Host) (w : World Host).

Lemma completeTour_fields o w :
  isActive (completeTour o w) = false /\
  currentStep (completeTour o w) = 0 /\
  runtime (completeTour o w) = markTourCompleted (runtime w) /\
  calls (completeTour o w) =
    calls w ++ match onComplete o with Some _ => [OnComplete] | None => [] end.
Proof.
  unfold completeTour. rewrite UseTourSpec.calls_invoke.
  destruct (invoke_fields OnComplete (onComplete o)
              (persistCompletion (setCurrentStep 0 (setIsActive false w))))
    as (-> & -> & ->).
  repeat split.
Qed.

Lemma skipTour_fields o w :
  isActive (skipTour o w) = false /\
  currentStep (skipTour o w) = 0 /\
  runtime (skipTour o w) = markTourCompleted (runtime w) /\
  calls (skipTour o w) =
    calls w ++ match onSkip o with Some _ => [OnSkip] | None => [] end.
Proof.
  unfold skipTour. rewrite UseTourSpec.calls_invoke.
  destruct (invoke_fields OnSkip (onSkip o)
              (persistCompletion (setCurrentStep 0 (setIsActive false w))))
    as (-> & -> & ->).
  repeat split.
Qed.

(** X11: from an active tour at step [i] of [n], with a render after every
    press of Next, fewer than [n - i] presses keep the tour active, move it
    that many steps and touch neither storage nor callbacks; press number
    [n - i] ends it: inactive, index 0, completion saved, [onComplete] run
    once. *)
Theorem completion_after_remaining_presses o w (cb : Callback Host) :
  isActive w = true ->
  0 <= currentStep w < totalSteps o ->
  onComplete o = Some cb ->
  (forall k : nat,
     Z.of_nat k < totalSteps o - currentStep w ->
     let after := pending (reactAll o (pressing k) (settled w)) in
     isActive after = true /\
     currentStep after = currentStep w + Z.of_nat k /\
     runtime after = runtime w /\
     calls after = calls w) /\
  (let finished :=
     pending (reactAll o (pressing (Z.to_nat (totalSteps o - currentStep w)))
                (settled w)) in
   isActive finished = false /\
   currentStep finished = 0 /\
   runtime finished = markTourCompleted (runtime w) /\
   calls finished = calls w ++ [OnComplete]).
Proof.
  intros Hon Hin Hcb. split.
  - intros k Hk. cbn zeta. rewrite UseTourSpec.reactAll_pressing. cbn [settled pending].
    rewrite UseTourSpec.advance_inner by lia. cbn. auto.
  - cbn zeta. rewrite UseTourSpec.reactAll_pressing. cbn [settled pending].
    destruct (Z.to_nat (totalSteps o - currentStep w)) as [|r] eqn:Hr; [lia|].
    rewrite UseTourSpec.advance_S, UseTourSpec.advance_inner by lia.
    rewrite UseTourSpec.nextStep_last by (cbn; lia).
    destruct (completeTour_fields o (setCurrentStep (currentStep w + Z.of_nat r) w))
      as (-> & -> & -> & ->).
    rewrite Hcb. cbn. auto.
Qed.

Lemma reactAll_pressingAtOnce o (k : nat) (f : Fiber Host) :
  reactAll o (pressingAtOnce k) f =
    {| rendered := rendered f;
       pending := Nat.iter k (nextStepVia (rendered f) o) (pending f) |}.
Proof.
  revert f. induction k as [|k IH]; intros f; [now destruct f|].
  rewrite Nat.iter_succ_r. unfold pressingAtOnce. cbn [replicate reactAll foldl].
  exact (IH (react o (Call NextStep) f)).
Qed.

Lemma iter_completeTour o (k : nat) w :
  calls (Nat.iter k (completeTour o) w) =
    calls w ++ match onComplete o with
               | Some _ => replicate k OnComplete
               | None => []
               end /\
  runtime (Nat.iter k (completeTour o) w) = Nat.iter k markTourCompleted (runtime w) /\
  ((1 <= k)%nat ->
   isActive (Nat.iter k (completeTour o) w) = false /\
   currentStep (Nat.iter k (completeTour o) w) = 0).
Proof.
  induction k as [|k (IHc & IHr & _)].
  - cbn. split; [|split; [reflexivity | lia]].
    destruct (onComplete o); now rewrite app_nil_r.
  - rewrite !Nat.iter_succ.
    destruct (completeTour_fields o (Nat.iter k (completeTour o) w))
      as (-> & -> & -> & ->).
    rewrite IHc, IHr. split; [|split; [reflexivity | auto]].
    destruct (onComplete o); [|now rewrite !app_nil_r].
    rewrite <- app_assoc. f_equal.
    change [OnComplete] with (replicate 1 OnComplete).
    rewrite <- replicate_add. f_equal. lia.
Qed.

(** X30: presses of Next through the handler of one render all test the
    index that render captured. Captured below the last step, [k] presses
    move the pending index [k] steps forward and change nothing else,
    however large [k] is: the tour stays active, nothing is saved, no
    callback runs, and the index can pass the end of the catalog. Captured
    at the last step, every one of the [k] presses completes the tour
    again: [onComplete] runs [k] times. *)
Theorem presses_through_one_render o (r w : World Host) (k : nat) :
  let after :=
    pending (reactAll o (pressingAtOnce k) {| rendered := r; pending := w |}) in
  (currentStep r < totalSteps o - 1 ->
   after = setCurrentStep (currentStep w + Z.of_nat k) w) /\
  (currentStep r >= totalSteps o - 1 ->
   calls after =
     calls w ++ match onComplete o with
                | Some _ => replicate k OnComplete
                | None => []
                end /\
   ((1 <= k)%nat -> isActive after = false /\ currentStep after = 0)).
Proof.
  cbn zeta. rewrite reactAll_pressingAtOnce. cbn [rendered pending]. split.
  - intros Hin. induction k as [|k IH].
    + cbn. rewrite Z.add_0_r. symmetry. apply UseTourSpec.setCurrentStep_same.
    + rewrite Nat.iter_succ, IH, (nextStepVia_inner r o _ Hin).
      unfold setCurrentStep. cbn. f_equal. lia.
  - intros Hlast.
    assert (Hiter : Nat.iter k (nextStepVia r o) w = Nat.iter k (completeTour o) w).
    { induction k as [|k IH]; [reflexivity|].
      now rewrite !Nat.iter_succ, IH, (nextStepVia_last r o _ Hlast). }
    rewrite Hiter. destruct (iter_completeTour o k w) as (Hc & _ & Hoff). auto.
Qed.

(** X12: while the step bound holds, the hook hands out a current step
    exactly when the tour is active, and it is the catalog entry at the
    current index; a tour started on an empty catalog is active with no
    current step. *)
Theorem currentStepData_defined_iff_active o w :
  stepInRange o w ->
  (is_Some (currentStepData o w) <-> isActive w = true) /\
  (isActive w = true ->
   currentStepData o w = steps o !! Z.to_nat (currentStep w)) /\
  (steps o = [] ->
   isActive (startTour o w) = true /\ currentStepData o (startTour o w) = None).
Proof.
  intros Hinv.
  assert (Hdata : isActive w = true ->
            currentStepData o w = steps o !! Z.to_nat (currentStep w)).
  { intros Hon. unfold currentStepData. rewrite Hon.
    destruct (Z.leb_spec 0 (currentStep w)); [reflexivity|].
    specialize (Hinv Hon). lia. }
  split; [|split; [exact Hdata|]].
  - split.
    + unfold currentStepData. destruct (isActive w); [reflexivity|].
      intros [? ?]; discriminate.
    + intros Hon. rewrite (Hdata Hon). apply lookup_lt_is_Some.
      specialize (Hinv Hon). unfold totalSteps in Hinv. lia.
  - intros Hempty. unfold startTour, currentStepData.
    destruct (invoke_fields OnStart (onStart o)
                (setIsActive true (setCurrentStep 0 w))) as (-> & -> & _).
    cbn. now rewrite Hempty.
Qed.

(** X13: leaving needs no active tour. On the world of the first render,
    with a storage that takes the writes and can be read, [skipTour] records
    the tour as completed, and so does [nextStep] when the catalog has at
    most one step; on a longer catalog [nextStep] moves the hidden index to
    1 and neither activates the tour nor writes anything. *)
Theorem leaving_needs_no_active_tour o rt (h : Host) :
  acceptsCompletionWrite rt = true ->
  readable rt = true ->
  shouldShowTour (runtime (skipTour o (initialWorld rt h))) = false /\
  ((length (steps o) <= 1)%nat ->
   shouldShowTour (runtime (nextStep o (initialWorld rt h))) = false) /\
  ((2 <= length (steps o))%nat ->
   nextStep o (initialWorld rt h) = setCurrentStep 1 (initialWorld rt h)).
Proof.
  intros Hw Hr. split; [|split].
  - destruct (skipTour_fields o (initialWorld rt h)) as (_ & _ & -> & _).
    now apply gate_shut_after_markTourCompleted.
  - intros Hshort. rewrite UseTourSpec.nextStep_last
      by (unfold totalSteps; cbn; lia).
    destruct (completeTour_fields o (initialWorld rt h)) as (_ & _ & -> & _).
    now apply gate_shut_after_markTourCompleted.
  - intros Hlong. rewrite UseTourSpec.nextStep_inner
      by (unfold totalSteps; cbn; lia).
    reflexivity.
Qed.

Lemma visit_cases o rt (h : Host) :
  visit o rt h =
    if shouldShowTour rt
    then startTour (withAutoStart true o) (initialWorld rt h)
    else initialWorld rt h.
Proof. unfold visit, mount. cbn. now destruct (shouldShowTour rt). Qed.

(** X14: after the tour was left, by [skipTour] or by [nextStep] on the
    last step, on a storage that takes the writes and can be read, the next
    page load with [autoStart = shouldShowTour()] does not start the tour
    and runs no callback. *)
Theorem no_autostart_after_leaving o w (h : Host) :
  acceptsCompletionWrite (runtime w) = true ->
  readable (runtime w) = true ->
  visit o (runtime (skipTour o w)) h = initialWorld (runtime (skipTour o w)) h /\
  (currentStep w >= totalSteps o - 1 ->
   visit o (runtime (nextStep o w)) h = initialWorld (runtime (nextStep o w)) h).
Proof.
  intros Hw Hr. split.
  - rewrite visit_cases.
    destruct (skipTour_fields o w) as (_ & _ & -> & _).
    now rewrite (gate_shut_after_markTourCompleted _ Hw Hr).
  - intros Hlast. rewrite visit_cases, (UseTourSpec.nextStep_last o w Hlast).
    destruct (completeTour_fields o w) as (_ & _ & -> & _).
    now rewrite (gate_shut_after_markTourCompleted _ Hw Hr).
Qed.

(** X15: a page load with [autoStart = shouldShowTour()] never starts the
    tour on the server; on a client where no completion flag is stored it
    starts it at step 0, active, with [onStart] as the only callback run,
    even when the storage cannot be read. *)
Theorem first_visit_autostarts_on_client_only o (h : Host) :
  visit o Server h = initialWorld Server h /\
  (forall b, storedCompleted (localStorage b) = None ->
     let w := visit o (Client b) h in
     isActive w = true /\ currentStep w = 0 /\ runtime w = Client b /\
     calls w = match onStart o with Some _ => [OnStart] | None => [] end).
Proof.
  split; [reflexivity|]. intros b Hnone w.
  assert (Hopen : shouldShowTour (Client b) = true).
  { unfold shouldShowTour, shouldShowTourAt.
    replace (isTourCompleted (Client b)) with false; [reflexivity|].
    cbn [isTourCompleted]. unfold getItem.
    destruct (getItemThrows (localStorage b) TOUR_COMPLETED_KEY); [reflexivity|].
    unfold storedCompleted in Hnone. now rewrite Hnone. }
  unfold w. rewrite visit_cases, Hopen. unfold startTour.
  rewrite UseTourSpec.calls_invoke.
  destruct (invoke_fields OnStart (onStart (withAutoStart true o))
              (setIsActive true (setCurrentStep 0 (initialWorld (Client b) h))))
    as (-> & -> & ->).
  repeat split.
Qed.

End Journeys.

Lemma completion_after_remaining_presses_witness :
  let w := showing (Client (browserOf (reliable ∅))) 1 in
  isActive (pending (reactAll threeSteps (pressing 1) (settled w))) = true /\
  isActive (pending (reactAll threeSteps (pressing 2) (settled w))) = false /\
  calls (pending (reactAll threeSteps (pressing 2) (settled w))) = [OnComplete].
Proof.
  intros w.
  destruct (completion_after_remaining_presses threeSteps w tally eq_refl)
    as [Hbefore (Hoff & _ & _ & Hcalls)];
    [vm_compute; split; [discriminate | reflexivity] | reflexivity |].
  split; [apply (Hbefore 1%nat); vm_compute; reflexivity|].
  split; [exact Hoff | exact Hcalls].
Defined.

Lemma presses_through_one_render_witness :
  let started := startTour threeSteps (initialWorld Server 0%nat) in
  pending (reactAll threeSteps (pressingAtOnce 3) (settled started)) =
    setCurrentStep 3 started /\
  calls (pending (reactAll threeSteps (pressingAtOnce 2)
                    (settled (showing Server 2)))) = [OnComplete; OnComplete].
Proof.
  intros started. split.
  - apply (proj1 (presses_through_one_render threeSteps started started 3)).
    vm_compute. reflexivity.
  - apply (proj2 (presses_through_one_render threeSteps (showing Server 2)
                    (showing Server 2) 2)).
    vm_compute. discriminate.
Defined.

Lemma currentStepData_defined_iff_active_witness :
  currentStepData threeSteps (showing Server 1) = meetingTourSteps !! 1%nat.
Proof.
  apply (currentStepData_defined_iff_active threeSteps (showing Server 1)).
  - intros _. vm_compute. split; [discriminate | reflexivity].
  - reflexivity.
Defined.

Lemma leaving_needs_no_active_tour_witness :
  let rt := Client (browserOf (reliable ∅)) in
  shouldShowTour rt = true /\
  shouldShowTour (runtime (skipTour threeSteps (initialWorld rt 0%nat))) = false.
Proof.
  split; [reflexivity|].
  apply (fun Hw Hr =>
           proj1 (leaving_needs_no_active_tour threeSteps
                    (Client (browserOf (reliable ∅))) 0%nat Hw Hr));
    reflexivity.
Defined.

Lemma no_autostart_after_leaving_witness :
  let w := showing (Client (browserOf (reliable ∅))) 2 in
  isActive (visit threeSteps (runtime w) 0%nat) = true /\
  visit threeSteps (runtime (skipTour threeSteps w)) 0%nat =
    initialWorld (runtime (skipTour threeSteps w)) 0%nat.
Proof.
  split; [reflexivity|].
  apply (fun Hw Hr =>
           proj1 (no_autostart_after_leaving threeSteps
                    (showing (Client (browserOf (reliable ∅))) 2) 0%nat Hw Hr));
    reflexivity.
Defined.

Lemma first_visit_autostarts_on_client_only_witness :
  isActive (visit threeSteps (Client (browserOf (denied ∅))) 0%nat) = true.
Proof.
  apply (proj2 (first_visit_autostarts_on_client_only threeSteps 0%nat)
           (browserOf (denied ∅))).
  reflexivity.
Defined.

End UseTourLaws.

(** ** The provider: keyboard, focus and overlay layers *)

Module TourProviderLaws.
Import TourStorage TourDefinitions UseTour TourProvider.
Local Open Scope Z_scope.

Section Keyboard.
Context {Host : Type}.
Implicit Types (o : UseTourOptions Host) (w : World Host).

Lemma keydown_active o key w :
  isActive w = true ->
  keydown o key w =
    if bool_decide (key = "Escape") then (true, skipTour o w)
    else if bool_decide (key = "ArrowRight") || bool_decide (key = "Enter")
         then (true, nextStep o w)
    else if bool_decide (key = "ArrowLeft") then (true, prevStep o w)
    else (false, w).
Proof. intros Hon. unfold keydown, handleKeyDown. now rewrite Hon. Qed.

Lemma keydown_is_control o key w :
  keydown o key w = (false, w) \/
  exists c, c <> StartTour /\ keydown o key w = (true, perform o c w) /\
            isActive w = true /\ key ∈ handledKeys.
Proof.
  destruct (isActive w) eqn:Hon; [|left; unfold keydown; now rewrite Hon].
  rewrite (keydown_active o key w Hon). unfold handledKeys.
  case_bool_decide as H1.
  { right. exists SkipTour. subst key. repeat split; [discriminate | set_solver]. }
  case_bool_decide as H2.
  { right. exists NextStep. subst key. repeat split; [discriminate | set_solver]. }
  case_bool_decide as H3.
  { right. exists NextStep. subst key. repeat split; [discriminate | set_solver]. }
  cbn [orb]. case_bool_decide as H4.
  { right. exists PrevStep. subst key. repeat split; [discriminate | set_solver]. }
  now left.
Qed.

(** X16: the keyboard acts only on an active tour. [preventDefault] is
    called exactly when the tour is active and the key is Escape,
    ArrowRight, Enter or ArrowLeft; in every other case the world is left
    as it was. No key activates the tour, every key keeps the step bound,
    and Escape on an active tour ends in the world [skipTour] ends in. *)
Theorem keyboard_acts_only_on_active_tour o (key : string) w :
  (fst (keydown o key w) = true <-> isActive w = true /\ key ∈ handledKeys) /\
  (fst (keydown o key w) = false -> snd (keydown o key w) = w) /\
  (isActive (snd (keydown o key w)) = true -> isActive w = true) /\
  (stepInRange o w -> stepInRange o (snd (keydown o key w))) /\
  (isActive w = true -> keydown o "Escape" w = (true, skipTour o w)).
Proof.
  split; [|split; [|split; [|split]]].
  - split.
    + destruct (keydown_is_control o key w) as [-> | (c & _ & -> & Hon & Hkey)];
        [discriminate | auto].
    + intros [Hon Hkey]. rewrite (keydown_active o key w Hon).
      unfold handledKeys in Hkey.
      repeat (apply elem_of_cons in Hkey as [-> | Hkey]); try reflexivity.
      now apply elem_of_nil in Hkey.
  - destruct (keydown_is_control o key w) as [-> | (c & _ & -> & _)];
      [reflexivity | discriminate].
  - destruct (keydown_is_control o key w) as [-> | (c & Hc & -> & _)]; [auto|].
    cbn [snd]. intros Hon. destruct (isActive w) eqn:Hw; [reflexivity|].
    now rewrite (UseTourLaws.inactive_unless_started o c w Hc Hw) in Hon.
  - intros Hinv.
    destruct (keydown_is_control o key w) as [-> | (c & Hc & -> & _)]; [exact Hinv|].
    cbn [snd]. destruct c; cbn [perform]; [contradiction| | | |].
    + now apply UseTourSpec.stepInRange_nextStep.
    + now apply UseTourSpec.stepInRange_prevStep.
    + apply UseTourSpec.stepInRange_skipTour.
    + now apply UseTourSpec.stepInRange_goToStep.
  - intros Hon. now rewrite (keydown_active o "Escape" w Hon).
Qed.

End Keyboard.

Lemma keyboard_acts_only_on_active_tour_witness :
  keydown threeSteps "Escape" (showing Server 1) =
    (true, skipTour threeSteps (showing Server 1)) /\
  snd (keydown threeSteps "a" (showing Server 1)) = showing Server 1.
Proof.
  destruct (keyboard_acts_only_on_active_tour threeSteps "a" (showing Server 1))
    as (_ & Hidle & _ & _ & Hescape).
  split; [now apply Hescape | now apply Hidle].
Defined.

Section Focus.
Context {Element Document : Type}.
Context (activeElement : Document -> option Element)
        (focus : Element -> Document -> Document).
Context (tourId : string) (steps : list TourStep) (autoStart : bool)
        (onComplete onSkip : option (Document -> Document)).

Local Abbreviation options :=
  (providerOptions activeElement focus tourId steps autoStart onComplete onSkip).
Implicit Types (w : World (Page Element Document)) (p : Page Element Document).

Lemma focusKept_restoreFocus atStart calls0 cb p :
  focusKept atStart calls0 p ->
  focusKept atStart calls0 (forward cb (restoreFocus focus p)).
Proof.
  intros [Href (restored & Hcalls & Hall)].
  assert (Hstep : focusKept atStart calls0 (restoreFocus focus p)).
  { unfold restoreFocus. destruct (previousFocusRef p) as [e|] eqn:He.
    - split; [cbn; congruence|]. exists (restored ++ [e]). cbn [focusCalls]. split.
      + now rewrite Hcalls, app_assoc.
      + apply Forall_app. split; [exact Hall|]. constructor; [congruence | constructor].
    - split; [congruence | now exists restored]. }
  destruct cb; [|exact Hstep]. exact Hstep.
Qed.

Lemma focusKept_perform atStart calls0 (c : Control) w :
  c <> StartTour ->
  focusKept atStart calls0 (host w) ->
  focusKept atStart calls0 (host (perform options c w)).
Proof.
  intros Hc Hkept. destruct c as [| | | |k]; cbn [perform]; [contradiction| | | |].
  - rewrite UseTourLaws.nextStep_cases.
    destruct (currentStep w >=? totalSteps options - 1); [|exact Hkept].
    cbn. now apply focusKept_restoreFocus.
  - unfold prevStep, prevStepVia. now destruct (currentStep w >? 0).
  - cbn. now apply focusKept_restoreFocus.
  - unfold goToStep. now destruct ((k >=? 0) && (k <? totalSteps options)).
Qed.

Lemma focusKept_performAll atStart calls0 (cs : list Control) w :
  Forall (fun c => c <> StartTour) cs ->
  focusKept atStart calls0 (host w) ->
  focusKept atStart calls0 (host (performAll options cs w)).
Proof.
  intros Hcs. revert w. induction Hcs as [|c cs Hc _ IH]; intros w Hkept; [exact Hkept|].
  cbn. apply IH. now apply focusKept_perform.
Qed.

(** X17: whatever controls other than [startTour] follow a start, the
    provider's ref keeps the element that was focused when the tour started,
    and every [focus()] the provider calls goes to that element; skipping
    right after the start calls it exactly once, or not at all when nothing
    was focused. *)
Theorem focus_returns_to_element_focused_at_start (cs : list Control) w :
  Forall (fun c => c <> StartTour) cs ->
  let atStart := activeElement (document (host w)) in
  focusKept atStart (focusCalls (host w))
    (host (performAll options cs (startTour options w))) /\
  focusCalls (host (skipTour options (startTour options w))) =
    focusCalls (host w) ++ match atStart with Some e => [e] | None => [] end.
Proof.
  intros Hcs atStart. split.
  - apply focusKept_performAll; [exact Hcs|].
    cbn. split; [reflexivity|]. exists []. split; [now rewrite app_nil_r | constructor].
  - cbn. unfold restoreFocus. cbn. fold atStart.
    destruct atStart; destruct onSkip; cbn; now rewrite ?app_nil_r.
Qed.

End Focus.

Lemma focus_returns_to_element_focused_at_start_witness :
  let o := providerOptions (Element := nat) (Document := option nat)
             (fun d => d) (fun e _ => Some e) "meeting" meetingTourSteps false None None in
  let w := initialWorld Server
             {| document := Some 7%nat; previousFocusRef := None; focusCalls := [] |} in
  focusCalls (host (performAll o [NextStep; GoToStep 3; PrevStep; SkipTour]
                      (startTour o w))) = [7%nat].
Proof.
  intros o w.
  destruct (focus_returns_to_element_focused_at_start (fun d : option nat => d)
              (fun (e : nat) _ => Some e) "meeting" meetingTourSteps false None None
              [NextStep; GoToStep 3; PrevStep; SkipTour] w) as [[_ _] _].
  - repeat constructor; discriminate.
  - reflexivity.
Defined.

Section Layers.
Context {Element Document Host : Type}.
Context (querySelector : Document -> string -> option Element).
Implicit Types (o : UseTourOptions Host) (w : World Host) (ov : Overlay Element).

Lemma targetElement_resolved doc o w (e : Element) :
  targetElement querySelector doc o w = Some e ->
  exists d s tid,
    doc = Some d /\ isActive w = true /\ currentStepData o w = Some s /\
    type s = spotlight /\ targetId s = Some tid /\ tid <> "" /\
    querySelector d (selectorFor tid) = Some e.
Proof.
  unfold targetElement, targetLookup.
  destruct doc as [d|]; [|discriminate].
  destruct (isActive w) eqn:Hon; [|discriminate]. cbn [negb].
  destruct (currentStepData o w) as [s|] eqn:Hs; [|discriminate].
  destruct (type s) eqn:Ht; [|discriminate].
  destruct (targetId s) as [tid|] eqn:Hid; [|discriminate].
  case_bool_decide as Hempty; [discriminate|].
  destruct (querySelector d (selectorFor tid)) as [e'|] eqn:Hq; [|discriminate].
  cbn. intros [= ->]. exists d, s, tid. repeat split; auto.
Qed.

Lemma currentStepData_in_range o w (s : TourStep) :
  currentStepData o w = Some s ->
  isActive w = true /\ 0 <= currentStep w < totalSteps o.
Proof.
  unfold currentStepData. destruct (isActive w); [|discriminate].
  destruct (Z.leb_spec 0 (currentStep w)); [|discriminate].
  intros Hs%lookup_lt_Some. unfold totalSteps. split; [reflexivity | lia].
Qed.

(** X18: what the overlay shows. An overlay is rendered only for a mounted
    provider with an active tour; it never shows both the spotlight and the
    modal backdrop; the spotlight is shown exactly when a target element was
    found, and that element is then the one the document returned for the
    selector of the current spotlight step; a modal step has no target; and
    the announced step number lies between 1 and the announced total. *)
Theorem overlay_shows_one_layer_at_most isMounted doc o w ov :
  renderOverlay querySelector isMounted doc o w = Some ov ->
  isMounted = true /\ isActive w = true /\
  spotlightVisible ov && modalBackdrop ov = false /\
  (spotlightVisible ov = true <-> is_Some (tooltipTarget ov)) /\
  spotlightTarget ov = tooltipTarget ov /\
  (modalBackdrop ov = true -> tooltipTarget ov = None) /\
  (forall e, tooltipTarget ov = Some e ->
     exists d s tid, doc = Some d /\ currentStepData o w = Some s /\
       targetId s = Some tid /\ querySelector d (selectorFor tid) = Some e) /\
  1 <= announcedStep ov <= announcedTotal ov.
Proof.
  unfold renderOverlay.
  destruct isMounted; [|discriminate].
  destruct (isActive w) eqn:Hon; [|discriminate]. cbn [negb orb].
  destruct (currentStepData o w) as [s|] eqn:Hs; [|discriminate].
  intros [= <-]. cbn.
  destruct (currentStepData_in_range o w s Hs) as [_ Hin].
  assert (Hres := targetElement_resolved doc o w).
  destruct (targetElement querySelector doc o w) as [e|] eqn:Ht.
  - destruct (Hres e eq_refl) as (d & s' & tid & -> & _ & Hs' & Htype & Hid & _ & Hq).
    assert (s' = s) as -> by congruence. rewrite Htype. cbn.
    repeat split; auto; try lia; try discriminate.
    intros e' [= Heq]. subst e'. exists d, s, tid. auto.
  - rewrite andb_false_r. cbn.
    repeat split; auto; try lia; try discriminate.
    intros [? ?]; discriminate.
Qed.

(** X19: a spotlight step whose target the document does not contain is
    reported with a warning, shows neither the spotlight nor the modal
    backdrop, and
    its tooltip is placed at the centre of the viewport whatever position
    the step asks for. *)
Theorem missing_target_falls_back_to_centre (d : Document) o w (s : TourStep)
    (tid : string) (rectOf : Element -> Dom.DOMRect) win size :
  currentStepData o w = Some s ->
  type s = spotlight ->
  targetId s = Some tid ->
  tid <> "" ->
  querySelector d (selectorFor tid) = None ->
  targetLookup querySelector (Some d) o w = (None, true) /\
  exists ov,
    renderOverlay querySelector true (Some d) o w = Some ov /\
    spotlightVisible ov = false /\ modalBackdrop ov = false /\
    Tooltip.getTooltipPosition win (rectOf <$> tooltipTarget ov)
      (tooltipPosition ov) size =
    Tooltip.getTooltipPosition win None center size.
Proof.
  intros Hs Htype Hid Hne Hq.
  destruct (currentStepData_in_range o w s Hs) as [Hon _].
  assert (Hlook : targetLookup querySelector (Some d) o w = (None, true)).
  { unfold targetLookup. rewrite Hon, Hs, Htype, Hid. cbn [negb].
    rewrite bool_decide_false by exact Hne. now rewrite Hq. }
  split; [exact Hlook|].
  unfold renderOverlay, targetElement. rewrite Hon, Hs, Hlook, Htype. cbn.
  eexists. split; [reflexivity|]. cbn. auto.
Qed.

End Layers.

Lemma overlay_shows_one_layer_at_most_witness :
  let w := showing Server 1 in
  let found := fun (_ : unit) (sel : string) =>
                 if bool_decide (sel = selectorFor "breathing-orb") then Some 5%nat else None in
  exists ov,
    renderOverlay found true (Some tt) threeSteps w = Some ov /\
    spotlightVisible ov = true /\ modalBackdrop ov = false /\
    tooltipTarget ov = Some 5%nat /\ announcedStep ov = 2%Z.
Proof.
  intros w found. eexists. split; [reflexivity|].
  destruct (overlay_shows_one_layer_at_most found true (Some tt) threeSteps w _ eq_refl)
    as (_ & _ & _ & Hspot & _).
  split.
  { apply Hspot. eexists. reflexivity. }
  repeat split.
Defined.

Lemma missing_target_falls_back_to_centre_witness :
  let w := showing Server 1 in
  targetLookup (fun (_ : unit) (_ : string) => @None nat) (Some tt) threeSteps w =
    (None, true).
Proof.
  intros w.
  refine (proj1 (missing_target_falls_back_to_centre
              (fun (_ : unit) (_ : string) => @None nat) tt threeSteps w
              {| id := "breathing-orb"; type := spotlight;
                 targetId := Some "breathing-orb"; title := "The Breathing Orb";
                 description := "This orb visualizes the assistant's state. Blue means idle, green means listening, purple means speaking.";
                 position := bottom; highlight := Some true |}
              "breathing-orb"
              (fun _ => Dom.box 0 0 0 0)
              {| Dom.innerWidth := 800%Q; Dom.innerHeight := 600%Q |}
              Tooltip.initialSize _ _ _ _ _));
    [reflexivity | reflexivity | reflexivity | discriminate | reflexivity].
Defined.

End TourProviderLaws.

(** ** The tooltip: focus trap and buttons *)

Module TourTooltipLaws.
Import TourStorage TourDefinitions UseTour TourTooltip.
Local Open Scope Z_scope.

(** The branches in which the handler does nothing. *)
Ltac idle :=
  cbn [fst snd];
  split; [split; [discriminate | intros [? ?]; discriminate]|];
  split; [discriminate|].

Section Trap.
Context {Element : Type} `{EqDecision Element}.

(** X20: the focus trap of the tooltip. The handler calls [preventDefault]
    exactly when it moves the focus; it moves it only on Tab, only when
    the focus is on the first or last focusable element of the tooltip,
    and only to an element of the tooltip: from the last to the first on
    Tab, from the first to the last on Shift+Tab. With the focus anywhere
    else, or nowhere, the key is left to the browser. *)
Theorem focus_trap_wraps_inside_tooltip (tooltipRef : option (list Element))
    (key : string) (shiftKey : bool) (active : option Element) :
  let prevented := fst (handleKeyDown tooltipRef key shiftKey active) in
  let moved := snd (handleKeyDown tooltipRef key shiftKey active) in
  (prevented = true <-> is_Some moved) /\
  (forall e, moved = Some e ->
     key = "Tab" /\
     exists focusable a first lst,
       tooltipRef = Some focusable /\ active = Some a /\
       head focusable = Some first /\ last focusable = Some lst /\
       e ∈ focusable /\ a ∈ focusable /\
       (if shiftKey then a = first /\ e = lst else a = lst /\ e = first)) /\
  (forall focusable first lst,
     tooltipRef = Some focusable -> key = "Tab" ->
     head focusable = Some first -> last focusable = Some lst ->
     active = Some (if shiftKey then first else lst) ->
     moved = Some (if shiftKey then lst else first)).
Proof.
  cbn zeta. unfold handleKeyDown.
  case_bool_decide as Hkey; cbn [negb]; [|idle; intros; contradiction].
  destruct tooltipRef as [focusable|]; [|idle; discriminate].
  destruct (head focusable) as [first|] eqn:Hfirst;
    [|idle; intros ? ? ? [= <-] _ ?; congruence].
  destruct (last focusable) as [lst|] eqn:Hlast;
    [|idle; intros ? ? ? [= <-] _ _ ?; congruence].
  assert (Hin1 := head_Some_elem_of _ _ Hfirst).
  assert (Hin2 := last_Some_elem_of _ _ Hlast).
  destruct shiftKey; case_bool_decide as Hact.
  - cbn [fst snd]. split; [split; [now eexists | reflexivity]|]. split.
    + intros e [= <-]. split; [exact Hkey|].
      exists focusable, first, first, lst. auto 10.
    + intros ? ? ? [= <-] _ Hh Hl _. congruence.
  - idle. intros ? ? ? [= <-] _ Hh Hl Ha. congruence.
  - cbn [fst snd]. split; [split; [now eexists | reflexivity]|]. split.
    + intros e [= <-]. split; [exact Hkey|].
      exists focusable, lst, first, lst. auto 10.
    + intros ? ? ? [= <-] _ Hh Hl _. congruence.
  - idle. intros ? ? ? [= <-] _ Hh Hl Ha. congruence.
Qed.

End Trap.

Lemma focus_trap_wraps_inside_tooltip_witness :
  snd (handleKeyDown (Some [1; 2; 3]%nat) "Tab" false (Some 3%nat)) = Some 1%nat /\
  snd (handleKeyDown (Some [1; 2; 3]%nat) "Tab" true (Some 1%nat)) = Some 3%nat.
Proof.
  split.
  - apply (proj2 (proj2 (focus_trap_wraps_inside_tooltip (Some [1; 2; 3]%nat)
                           "Tab" false (Some 3%nat))) [1; 2; 3]%nat 1%nat 3%nat);
      reflexivity.
  - apply (proj2 (proj2 (focus_trap_wraps_inside_tooltip (Some [1; 2; 3]%nat)
                           "Tab" true (Some 1%nat))) [1; 2; 3]%nat 1%nat 3%nat);
      reflexivity.
Defined.

Section Buttons.
Context {Host : Type}.
Implicit Types (o : UseTourOptions Host) (w : World Host).

(** X21: on an active tour within the step bound the buttons of the
    tooltip tell what the controls will do: Back is shown exactly when
    [prevStep] changes the world, and then it moves one step back; the Next
    button reads Done exactly when [nextStep] ends the tour. *)
Theorem tooltip_buttons_match_controls o w :
  isActive w = true ->
  0 <= currentStep w < totalSteps o ->
  (showsBack (currentStep w) = true <-> prevStep o w <> w) /\
  (showsBack (currentStep w) = true ->
   currentStep (prevStep o w) = currentStep w - 1) /\
  (nextLabel (currentStep w) (totalSteps o) = "Done" <->
   isActive (nextStep o w) = false).
Proof.
  intros Hon [Hlo Hhi].
  unfold showsBack, isFirstStep, nextLabel, isLastStep, prevStep, prevStepVia.
  split; [|split].
  - destruct (Z.eqb_spec (currentStep w) 0) as [Hz|Hz]; cbn [negb].
    + destruct (Z.gtb_spec (currentStep w) 0); [lia|].
      split; [discriminate | intros Hne; now contradiction Hne].
    + destruct (Z.gtb_spec (currentStep w) 0); [|lia].
      split; [|reflexivity]. intros _ Heq.
      apply (f_equal currentStep) in Heq. cbn in Heq. lia.
  - destruct (Z.eqb_spec (currentStep w) 0) as [Hz|Hz]; cbn [negb]; [discriminate|].
    destruct (Z.gtb_spec (currentStep w) 0); [|lia]. reflexivity.
  - rewrite UseTourLaws.nextStep_cases.
    destruct (Z.eqb_spec (currentStep w) (totalSteps o - 1)) as [Hl|Hl].
    + destruct (Z.geb_spec (currentStep w) (totalSteps o - 1)); [|lia].
      split; [|reflexivity]. intros _.
      now destruct (UseTourLaws.completeTour_fields o w) as [-> _].
    + destruct (Z.geb_spec (currentStep w) (totalSteps o - 1)); [lia|].
      cbn. rewrite Hon. split; discriminate.
Qed.

End Buttons.

Lemma tooltip_buttons_match_controls_witness :
  showsBack (currentStep (showing Server 2)) = true /\
  nextLabel (currentStep (showing Server 2)) (totalSteps threeSteps) = "Done" /\
  isActive (nextStep threeSteps (showing Server 2)) = false.
Proof.
  destruct (tooltip_buttons_match_controls threeSteps (showing Server 2) eq_refl)
    as (_ & _ & Hdone); [vm_compute; split; [discriminate | reflexivity]|].
  split; [reflexivity|]. split; [reflexivity|]. now apply Hdone.
Defined.

End TourTooltipLaws.

(** ** The progress dots *)

Module TourProgressLaws.
Import TourProgress.
Local Open Scope Z_scope.

Lemma map_seq_constant {A} (f : nat -> A) (x : A) (start len : nat) :
  (forall i, (start <= i < start + len)%nat -> f i = x) ->
  map f (seq start len) = replicate len x.
Proof.
  revert start. induction len as [|len IH]; intros start Hf; [reflexivity|].
  cbn. rewrite Hf by lia. f_equal. apply IH. intros i Hi. apply Hf. lia.
Qed.

Lemma dotStyle_cases current i :
  (i < current -> dotStyle current i = Passed) /\
  (i = current -> dotStyle current i = Current) /\
  (current < i -> dotStyle current i = Ahead).
Proof.
  unfold dotStyle.
  destruct (Z.eqb_spec i current); destruct (Z.ltb_spec i current);
    repeat split; intros; try reflexivity; lia.
Qed.

(** X22: the progress bar draws one dot per step. With the current index
    inside the catalog the dots are: one passed dot per earlier step, then
    the single current dot, then one dot per step ahead, and the announced
    value lies between its minimum and maximum. With the index at or past
    the end every dot reads as passed, and with a negative index every dot
    reads as ahead: no dot is current. *)
Theorem progress_dots_partition (current total : Z) :
  length (dots current total) = Z.to_nat total /\
  (0 <= current < total ->
   dots current total =
     replicate (Z.to_nat current) Passed ++
     Current :: replicate (Z.to_nat (total - current - 1)) Ahead /\
   ariaValueMin <= ariaValueNow current <= ariaValueMax total) /\
  (total <= current -> dots current total = replicate (Z.to_nat total) Passed) /\
  (current < 0 -> dots current total = replicate (Z.to_nat total) Ahead).
Proof.
  unfold dots. split; [now rewrite length_map, length_seq|]. split; [|split].
  - intros [Hlo Hhi].
    split; [|unfold ariaValueMin, ariaValueNow, ariaValueMax; lia].
    replace (Z.to_nat total)
      with (Z.to_nat current + (1 + Z.to_nat (total - current - 1)))%nat by lia.
    rewrite !seq_app, !map_app. cbn [seq map]. f_equal; [|cbn [app]; f_equal].
    + apply map_seq_constant. intros i Hi. apply dotStyle_cases. lia.
    + apply dotStyle_cases. lia.
    + apply map_seq_constant. intros i Hi. apply dotStyle_cases. lia.
  - intros Hpast. apply map_seq_constant. intros i Hi. apply dotStyle_cases. lia.
  - intros Hneg. apply map_seq_constant. intros i Hi. apply dotStyle_cases. lia.
Qed.

Lemma progress_dots_partition_witness :
  dots 1 3 = [Passed; Current; Ahead] /\ 1 <= ariaValueNow 1 <= 3.
Proof.
  apply (proj1 (proj2 (progress_dots_partition 1 3))). lia.
Defined.

End TourProgressLaws.

(** ** The spotlight path as a shape *)

Module SpotlightLaws.
Import Spotlight.
Local Open Scope Q_scope.

Lemma foldl_Qmin_spec (l : list Q) (a : Q) :
  foldl Qmin a l <= a /\
  Forall (fun x => foldl Qmin a l <= x) l /\
  (foldl Qmin a l == a \/ Exists (fun x => x == foldl Qmin a l) l).
Proof.
  revert a. induction l as [|x l IH]; intros a; cbn [foldl].
  - split; [apply Qle_refl|]. split; [constructor | left; reflexivity].
  - destruct (IH (Qmin a x)) as (Hle & Hall & Hex).
    split; [eapply Qle_trans; [exact Hle | apply Q.le_min_l]|].
    split.
    + constructor; [eapply Qle_trans; [exact Hle | apply Q.le_min_r] | exact Hall].
    + destruct Hex as [Heq | Hex]; [|right; now apply Exists_cons_tl].
      destruct (Q.min_dec a x) as [Hm | Hm].
      * left. now rewrite Heq.
      * right. apply Exists_cons_hd. now rewrite Heq.
Qed.

Lemma foldl_Qmax_spec (l : list Q) (a : Q) :
  a <= foldl Qmax a l /\
  Forall (fun x => x <= foldl Qmax a l) l /\
  (foldl Qmax a l == a \/ Exists (fun x => x == foldl Qmax a l) l).
Proof.
  revert a. induction l as [|x l IH]; intros a; cbn [foldl].
  - split; [apply Qle_refl|]. split; [constructor | left; reflexivity].
  - destruct (IH (Qmax a x)) as (Hle & Hall & Hex).
    split; [eapply Qle_trans; [apply Q.le_max_l | exact Hle]|].
    split.
    + constructor; [eapply Qle_trans; [apply Q.le_max_r | exact Hle] | exact Hall].
    + destruct Hex as [Heq | Hex]; [|right; now apply Exists_cons_tl].
      destruct (Q.max_dec a x) as [Hm | Hm].
      * left. now rewrite Heq.
      * right. apply Exists_cons_hd. now rewrite Heq.
Qed.

(** The least entry is the bound that every entry respects and some entry
    attains. *)
Lemma least_is (l : list Q) (m bound : Q) :
  least l = Some m ->
  Forall (fun x => bound <= x) l ->
  Exists (fun x => x == bound) l ->
  m == bound.
Proof.
  destruct l as [|a l]; [discriminate|]. cbn [least]. intros [= <-] Hall Hex.
  destruct (foldl_Qmin_spec l a) as (Hle & Hbelow & Hatt).
  apply Qle_antisym.
  - apply Exists_exists in Hex as (x & Hx & Hxb). rewrite <- Hxb.
    apply elem_of_cons in Hx as [-> | Hx]; [exact Hle|].
    rewrite Forall_forall in Hbelow. now apply Hbelow.
  - inversion Hall as [|? ? Ha Hl]; subst.
    destruct Hatt as [Heq | Hatt]; [now rewrite Heq|].
    apply Exists_exists in Hatt as (x & Hx & Heq). rewrite <- Heq.
    rewrite Forall_forall in Hl. now apply Hl.
Qed.

Lemma greatest_is (l : list Q) (m bound : Q) :
  greatest l = Some m ->
  Forall (fun x => x <= bound) l ->
  Exists (fun x => x == bound) l ->
  m == bound.
Proof.
  destruct l as [|a l]; [discriminate|]. cbn [greatest]. intros [= <-] Hall Hex.
  destruct (foldl_Qmax_spec l a) as (Hle & Habove & Hatt).
  apply Qle_antisym.
  - inversion Hall as [|? ? Ha Hl]; subst.
    destruct Hatt as [Heq | Hatt]; [now rewrite Heq|].
    apply Exists_exists in Hatt as (x & Hx & Heq). rewrite <- Heq.
    rewrite Forall_forall in Hl. now apply Hl.
  - apply Exists_exists in Hex as (x & Hx & Hxb). rewrite <- Hxb.
    apply elem_of_cons in Hx as [-> | Hx]; [exact Hle|].
    rewrite Forall_forall in Habove. now apply Habove.
Qed.

Lemma foldl_Qmin_is (a : Q) (rest : list Q) (bound : Q) :
  Forall (fun x => bound <= x) (a :: rest) ->
  Exists (fun x => x == bound) (a :: rest) ->
  foldl Qmin a rest == bound.
Proof. apply (least_is (a :: rest)). reflexivity. Qed.

Lemma foldl_Qmax_is (a : Q) (rest : list Q) (bound : Q) :
  Forall (fun x => x <= bound) (a :: rest) ->
  Exists (fun x => x == bound) (a :: rest) ->
  foldl Qmax a rest == bound.
Proof. apply (greatest_is (a :: rest)). reflexivity. Qed.

(** What the clamped radius satisfies, whatever the inputs. *)
Lemma clamped_radius_bounds (borderRadius width height : Q) :
  let r := Qmin borderRadius (Qmin (width / 2) (height / 2)) in
  r <= borderRadius /\ 2 * r <= width /\ 2 * r <= height /\
  (0 <= borderRadius -> 0 <= width -> 0 <= height -> 0 <= r) /\
  (borderRadius <= width / 2 -> borderRadius <= height / 2 -> r == borderRadius).
Proof.
  intros r.
  assert (H1 : r <= borderRadius) by apply Q.le_min_l.
  assert (H2 : r <= width / 2).
  { eapply Qle_trans; [apply Q.le_min_r | apply Q.le_min_l]. }
  assert (H3 : r <= height / 2).
  { eapply Qle_trans; [apply Q.le_min_r | apply Q.le_min_r]. }
  assert (H4 : 0 <= borderRadius -> 0 <= width -> 0 <= height -> 0 <= r).
  { intros Hb Hw Hh. apply Q.min_glb; [exact Hb|].
    apply Q.min_glb; unfold Qdiv; change (/ 2) with (1 # 2); lra. }
  assert (H5 : borderRadius <= width / 2 -> borderRadius <= height / 2 ->
               r == borderRadius).
  { intros Hw Hh. apply Q.min_l. apply Q.min_glb; assumption. }
  clearbody r. unfold Qdiv in H2, H3. change (/ 2) with (1 # 2) in H2, H3.
  repeat split; auto; lra.
Qed.

Ltac pick_point :=
  solve [repeat first [apply Exists_cons_hd; reflexivity | apply Exists_cons_tl]].


(** X24: for a radius that is not negative and a padded box whose sides are
    not negative, every point of the cutout sub-path, control points
    included, lies in the padded box, and each side of the box is reached:
    the extent of the cutout is exactly the target box grown by the
    padding. *)
Theorem cutout_extent_is_padded_box win rect padding borderRadius :
  0 <= borderRadius ->
  Dom.left rect - padding <= Dom.right rect + padding ->
  Dom.top rect - padding <= Dom.bottom rect + padding ->
  exists l t r b,
    cutoutExtent (calculateSpotlightPath win rect padding borderRadius) =
      Some (l, t, r, b) /\
    l == Dom.left rect - padding /\ t == Dom.top rect - padding /\
    r == Dom.right rect + padding /\ b == Dom.bottom rect + padding.
Proof.
  intros Hr Hw Hh.
  unfold cutoutExtent, calculateSpotlightPath.
  set (L := Dom.left rect - padding) in *.
  set (T := Dom.top rect - padding) in *.
  set (R := Dom.right rect + padding) in *.
  set (B := Dom.bottom rect + padding) in *.
  destruct (clamped_radius_bounds borderRadius (R - L) (B - T))
    as (_ & H2 & H3 & H4 & _).
  assert (H0 : 0 <= Qmin borderRadius (Qmin ((R - L) / 2) ((B - T) / 2)))
    by (apply H4; lra).
  set (rad := Qmin borderRadius (Qmin ((R - L) / 2) ((B - T) / 2))) in *.
  cbn [subpaths app flat_map points map fst snd least greatest].
  do 4 eexists. split; [reflexivity|].
  split; [|split; [|split]].
  - apply foldl_Qmin_is; [repeat constructor; lra | pick_point].
  - apply foldl_Qmin_is; [repeat constructor; lra | pick_point].
  - apply foldl_Qmax_is; [repeat constructor; lra | pick_point].
  - apply foldl_Qmax_is; [repeat constructor; lra | pick_point].
Qed.

Lemma cutout_extent_is_padded_box_witness :
  exists l t r b,
    cutoutExtent (calculateSpotlightPath
                    {| Dom.innerWidth := 800; Dom.innerHeight := 600 |}
                    (Dom.box 10 10 14 12) 1 8) = Some (l, t, r, b) /\
    l == 9 /\ t == 9 /\ r == 15 /\ b == 13.
Proof.
  destruct (cutout_extent_is_padded_box
              {| Dom.innerWidth := 800; Dom.innerHeight := 600 |}
              (Dom.box 10 10 14 12) 1 8) as (l & t & r & b & He & Hl & Ht & Hr & Hb);
    [vm_compute; discriminate ..|].
  exists l, t, r, b. split; [exact He|].
  rewrite Hl, Ht, Hr, Hb. repeat split; reflexivity.
Defined.

(** X25: both sub-paths of the overlay run the same way round. For every
    input the polygon through the points of the outer sub-path has twice
    the signed area [2 * innerWidth * innerHeight], and the polygon through
    the points of the cutout has [2 * width * height] of the padded box,
    whatever the radius; so for a viewport and a padded box with positive
    sides both are positive: the cutout is drawn clockwise like the outer
    rectangle. *)
Theorem overlay_subpaths_wind_the_same_way win rect padding borderRadius :
  exists outer inner,
    subpaths [] (calculateSpotlightPath win rect padding borderRadius) =
      [outer; inner] /\
    twiceSignedArea outer == 2 * Dom.innerWidth win * Dom.innerHeight win /\
    twiceSignedArea inner ==
      2 * ((Dom.right rect + padding) - (Dom.left rect - padding)) *
          ((Dom.bottom rect + padding) - (Dom.top rect - padding)) /\
    (0 < Dom.innerWidth win -> 0 < Dom.innerHeight win ->
     Dom.left rect - padding < Dom.right rect + padding ->
     Dom.top rect - padding < Dom.bottom rect + padding ->
     0 < twiceSignedArea outer /\ 0 < twiceSignedArea inner).
Proof.
  do 2 eexists. split; [reflexivity|].
  set (L := Dom.left rect - padding).
  set (T := Dom.top rect - padding).
  set (R := Dom.right rect + padding).
  set (B := Dom.bottom rect + padding).
  set (r := Qmin borderRadius (Qmin ((R - L) / 2) ((B - T) / 2))).
  assert (Ho : twiceSignedArea
                 [MoveTo 0 0; LineTo (Dom.innerWidth win) 0;
                  LineTo (Dom.innerWidth win) (Dom.innerHeight win);
                  LineTo 0 (Dom.innerHeight win); ClosePath]
               == 2 * Dom.innerWidth win * Dom.innerHeight win).
  { unfold twiceSignedArea. cbn [flat_map points app crossSum fst snd]. ring. }
  assert (Hi : twiceSignedArea
                 [MoveTo (L + r) T; LineTo (R - r) T; QuadTo R T R (T + r);
                  LineTo R (B - r); QuadTo R B (R - r) B; LineTo (L + r) B;
                  QuadTo L B L (B - r); LineTo L (T + r); QuadTo L T (L + r) T;
                  ClosePath]
               == 2 * (R - L) * (B - T)).
  { unfold twiceSignedArea. cbn [flat_map points app crossSum fst snd]. ring. }
  split; [exact Ho|]. split; [exact Hi|].
  intros Hw Hh Hbw Hbh. rewrite Ho, Hi. split.
  - apply Qmult_lt_0_compat; [|exact Hh]. apply Qmult_lt_0_compat; [reflexivity | exact Hw].
  - apply Qmult_lt_0_compat; [|lra]. apply Qmult_lt_0_compat; [reflexivity | lra].
Qed.

Lemma overlay_subpaths_wind_the_same_way_witness :
  exists outer inner,
    subpaths [] (calculateSpotlightPath
                   {| Dom.innerWidth := 800; Dom.innerHeight := 600 |}
                   (Dom.box 100 100 200 150) 8 8) = [outer; inner] /\
    0 < twiceSignedArea outer /\ 0 < twiceSignedArea inner.
Proof.
  destruct (overlay_subpaths_wind_the_same_way
              {| Dom.innerWidth := 800; Dom.innerHeight := 600 |}
              (Dom.box 100 100 200 150) 8 8)
    as (outer & inner & Hsub & _ & _ & Hpos).
  exists outer, inner. split; [exact Hsub|].
  apply Hpos; reflexivity.
Defined.

End SpotlightLaws.

(** ** The tooltip anchor: alignment, centring and the clamp *)

Module TooltipLaws.
Import Tooltip.
Local Open Scope Q_scope.

Lemma clamp_pinned lo hi x : hi <= lo -> Qmax lo (Qmin x hi) == lo.
Proof.
  intros Hnarrow. apply Q.max_l.
  eapply Qle_trans; [apply Q.le_min_r | exact Hnarrow].
Qed.

Lemma clamp_twice lo hi x :
  Qmax lo (Qmin (Qmax lo (Qmin x hi)) hi) == Qmax lo (Qmin x hi).
Proof.
  destruct (Qlt_le_dec hi lo) as [Hnarrow | Hroom].
  - rewrite !clamp_pinned by now apply Qlt_le_weak. reflexivity.
  - apply TooltipSpec.clamp_inside;
      [apply TooltipSpec.clamp_lower | now apply TooltipSpec.clamp_upper].
Qed.

Lemma clamp_monotone lo hi x y :
  x <= y -> Qmax lo (Qmin x hi) <= Qmax lo (Qmin y hi).
Proof.
  intros Hxy. apply Q.max_le_compat_l. now apply Q.min_le_compat_r.
Qed.

(** X26: across the axis of the gap the wanted anchor follows the
    placement: [top] and [bottom] centre the tooltip on the centre line of
    the target, [-start] puts its left edge on the target's left edge,
    [-end] its right edge on the target's right edge, and [left] and
    [right] centre it vertically; the returned anchor keeps that alignment
    whenever the wanted one is within the 16-unit inset. *)
Theorem placement_aligns_tooltip_with_target win rect position size :
  isCenter position = false ->
  alignedAcross rect position size (candidate rect position size) /\
  (withinInset win size 16 (candidate rect position size) ->
   alignedAcross rect position size
     (getTooltipPosition win (Some rect) position size)).
Proof.
  intros Hdir.
  assert (Hwanted : alignedAcross rect position size (candidate rect position size)).
  { destruct position; try discriminate Hdir;
      cbn [alignedAcross candidate top left]; unfold GAP; field. }
  split; [exact Hwanted|]. intros (Hl & Hr & Ht & Hb).
  rewrite (TooltipSpec.getTooltipPosition_directional _ _ _ _ Hdir).
  assert (Hx : left (clampToViewport win size (candidate rect position size)) ==
               left (candidate rect position size))
    by (apply TooltipSpec.clamp_inside; lra).
  assert (Hy : top (clampToViewport win size (candidate rect position size)) ==
               top (candidate rect position size))
    by (apply TooltipSpec.clamp_inside; lra).
  destruct position; try discriminate Hdir;
    unfold alignedAcross in *; rewrite ?Hx, ?Hy; exact Hwanted.
Qed.

Lemma placement_aligns_tooltip_with_target_witness :
  let win := {| Dom.innerWidth := 800; Dom.innerHeight := 600 |} in
  let rect := Dom.box 300 100 500 150 in
  let a := getTooltipPosition win (Some rect) TourDefinitions.bottom initialSize in
  left a + 320 / 2 == 400 /\ top a == 166.
Proof.
  intros win rect a.
  destruct (placement_aligns_tooltip_with_target win rect TourDefinitions.bottom
              initialSize eq_refl) as [_ Hkept].
  split; [|reflexivity].
  assert (Hin : withinInset win initialSize 16
                  (candidate rect TourDefinitions.bottom initialSize))
    by (repeat split; vm_compute; discriminate).
  specialize (Hkept Hin). cbn [alignedAcross] in Hkept.
  eapply Qeq_trans; [exact Hkept | reflexivity].
Defined.

(** X27: without a target, or with the [center] placement, the tooltip is
    centred in the viewport and not clamped: its centre is the centre of
    the viewport for every size, and it respects the 16-unit inset exactly
    when the tooltip and both insets fit into the viewport. *)
Theorem centred_tooltip_is_not_clamped win targetRect position size :
  targetRect = None \/ position = TourDefinitions.center ->
  let a := getTooltipPosition win targetRect position size in
  left a + width size / 2 == Dom.innerWidth win / 2 /\
  top a + height size / 2 == Dom.innerHeight win / 2 /\
  (withinInset win size 16 a <-> fits win size 16).
Proof.
  intros Hcentre.
  assert (Ha : getTooltipPosition win targetRect position size =
               {| top := (Dom.innerHeight win - height size) / 2;
                  left := (Dom.innerWidth win - width size) / 2 |}).
  { destruct Hcentre as [-> | ->]; [reflexivity|]. now destruct targetRect. }
  cbn zeta. rewrite Ha. cbn [left top]. unfold withinInset, fits. cbn [left top].
  split; [field|]. split; [field|].
  unfold Qdiv. change (/ 2) with (1 # 2).
  split; [intros (H1 & H2 & H3 & H4) | intros [H1 H2]]; repeat split; lra.
Qed.

Lemma centred_tooltip_is_not_clamped_witness :
  let win := {| Dom.innerWidth := 300; Dom.innerHeight := 600 |} in
  let a := getTooltipPosition win None TourDefinitions.bottom initialSize in
  left a == -10 /\ ~ withinInset win initialSize 16 a.
Proof.
  intros win a. split; [reflexivity|].
  destruct (centred_tooltip_is_not_clamped win None TourDefinitions.bottom initialSize
              (or_introl eq_refl)) as (_ & _ & Hiff).
  intros Hin. apply Hiff in Hin. destruct Hin as [Hw _].
  vm_compute in Hw. now apply Hw.
Defined.

(** X28: the clamp is idempotent and monotone on each axis: clamping a
    clamped anchor changes nothing, and an anchor further right or further
    down never ends up further left or further up, in every viewport, also
    one the tooltip does not fit into. *)
Theorem clampToViewport_idempotent_monotone win size (a b : Anchor) :
  left (clampToViewport win size (clampToViewport win size a)) ==
    left (clampToViewport win size a) /\
  top (clampToViewport win size (clampToViewport win size a)) ==
    top (clampToViewport win size a) /\
  (left a <= left b ->
   left (clampToViewport win size a) <= left (clampToViewport win size b)) /\
  (top a <= top b ->
   top (clampToViewport win size a) <= top (clampToViewport win size b)).
Proof.
  cbn [clampToViewport left top].
  split; [apply clamp_twice|]. split; [apply clamp_twice|].
  split; apply clamp_monotone.
Qed.

(** X29: in a viewport too narrow for the tooltip and both insets
    ([innerWidth <= width + 32]) every directional placement ends with the
    left anchor at exactly 16, whatever the target; likewise the top anchor
    in a viewport that is too low. *)
Theorem cramped_viewport_pins_anchor win rect position size :
  isCenter position = false ->
  let a := getTooltipPosition win (Some rect) position size in
  (Dom.innerWidth win <= width size + 32 -> left a == 16) /\
  (Dom.innerHeight win <= height size + 32 -> top a == 16).
Proof.
  intros Hdir. cbn zeta.
  rewrite (TooltipSpec.getTooltipPosition_directional _ _ _ _ Hdir).
  cbn [clampToViewport left top].
  split; intros Hcramped; apply clamp_pinned; lra.
Qed.

Lemma cramped_viewport_pins_anchor_witness :
  let win := {| Dom.innerWidth := 320; Dom.innerHeight := 568 |} in
  left (getTooltipPosition win (Some (Dom.box 40 300 280 340))
          TourDefinitions.bottom_end initialSize) == 16.
Proof.
  intros win.
  apply (cramped_viewport_pins_anchor win (Dom.box 40 300 280 340)
           TourDefinitions.bottom_end initialSize eq_refl).
  vm_compute. discriminate.
Defined.

End TooltipLaws.
